(** * Shallow embedding of src/src/tm.py (PythonTuringMachineSimulator)

    Symbols on the tape are numpy [uint8] values, modelled as [Z] with the
    8-bit wrap-around written out ([u8]).  Tapes are lists updated by index
    (stdpp list lookup and insert).  Python exceptions are the [err] branch
    of a sum.  The simulation loops do not terminate in general; they take
    a [fuel] argument and return [None] when the fuel runs out. *)

From Stdlib Require Import ZArith Lia.
From stdpp Require Import base list gmap strings pretty.

Open Scope Z_scope.

(** Python exceptions raised along the paths we model. *)
Inductive err :=
| InvalidInputSymbol   (** TuringMachineError("input contains invalid characters") *)
| IndexError
| NameError.

(** numpy conversion to dtype uint8 (C cast: reduction modulo 2^8). *)
Definition u8 (z : Z) : Z := z mod 256.

(** A transition triple [(to_state, tape_output, move_right)]. *)
Definition triple : Type := nat * Z * bool.

(** [TuringMachineDescription]: [transitions q a] is [None] when the key
    [a] is absent from [transitions[q]]. The deterministic description maps
    to a single triple, the nondeterministic one to a list of triples. *)
Record Description (T : Type) := mkDescription {
  alphabet : list string;
  states : list string;
  accepting : nat;
  rejecting : nat;
  transitions : nat -> Z -> option T
}.
Arguments mkDescription {T}.
Arguments alphabet {T}.
Arguments states {T}.
Arguments accepting {T}.
Arguments rejecting {T}.
Arguments transitions {T}.

(** [TuringMachineConfiguration] (value semantics). *)
Record Configuration := mkConfiguration {
  state : nat;
  tape : list Z;
  position : nat
}.

(** [TuringMachineResult] fields. *)
Record Result := mkResult {
  num_steps : nat;
  accepted : bool;
  res_tape : option (list string)
}.

(** ** TuringMachineResult.__init__ *)

(** [for i, letter in enumerate(reversed(tape)): if letter != "_": break]
    returns the index at which the loop broke, or [None] when it ran to
    the end. *)
Fixpoint break_index (l : list string) (i : nat) : option nat :=
  match l with
  | [] => None
  | letter :: rest =>
      if String.eqb letter "_" then break_index rest (S i) else Some i
  end.

(** The value of the loop variable [i] after the loop: the break index,
    or the last index enumerated; unbound ([None]) for an empty tape. *)
Definition loop_var_i (t : list string) : option nat :=
  match break_index (rev t) 0 with
  | Some i => Some i
  | None => match t with [] => None | _ => Some (length t - 1)%nat end
  end.

(** [tape[:-i] if i > 0 else tape], then [["_"]] for an empty slice. *)
Definition trim_tape (t : list string) : err + list string :=
  match loop_var_i t with
  | None => inl NameError
  | Some i =>
      let t' := if (0 <? i)%nat then take (length t - i) t else t in
      inr (if decide (t' = []) then ["_"] else t')
  end.

Definition TuringMachineResult (n : nat) (acc : bool) (t : option (list string))
  : err + Result :=
  match t with
  | None => inr (mkResult n acc None)
  | Some t => match trim_tape t with
              | inl e => inl e
              | inr t' => inr (mkResult n acc (Some t'))
              end
  end.

(** Spec wording of the trimming: drop all trailing blanks, and keep a
    lone blank when nothing is left. *)
Fixpoint drop_blanks (l : list string) : list string :=
  match l with
  | [] => []
  | x :: rest => if String.eqb x "_" then drop_blanks rest else l
  end.

Definition spec_trim (t : list string) : list string :=
  match rev (drop_blanks (rev t)) with
  | [] => ["_"]
  | t' => t'
  end.

(** A small error monad for the [err + A] results. *)
Definition ebind {A B} (m : err + A) (k : A -> err + B) : err + B :=
  match m with inl e => inl e | inr a => k a end.
Notation "x <- m ;; k" := (ebind m (fun x => k))
  (at level 100, m at next level, right associativity).

(** ** Symbol encoding *)

(** Python's [list.index]: the first index of [x], [ValueError] if absent. *)
Fixpoint index_of (x : string) (l : list string) : option nat :=
  match l with
  | [] => None
  | y :: l' => if String.eqb x y then Some 0%nat
               else option_map S (index_of x l')
  end.

(** [np.array([alphabet.index(x) for x in input], dtype=np.uint8)];
    a [ValueError] becomes [InvalidInputSymbol]. *)
Fixpoint encode (alph : list string) (inp : list string) : err + list Z :=
  match inp with
  | [] => inr []
  | x :: rest =>
      match index_of x alph with
      | None => inl InvalidInputSymbol
      | Some i => t <- encode alph rest ;; inr (u8 (Z.of_nat i) :: t)
      end
  end.

(** [[alphabet[x] for x in tape]]. *)
Fixpoint decode (alph : list string) (t : list Z) : err + list string :=
  match t with
  | [] => inr []
  | x :: rest =>
      match alph !! Z.to_nat x with
      | None => inl IndexError
      | Some s => r <- decode alph rest ;; inr (s :: r)
      end
  end.

(** [if len(input) == 0: input = ["_"]]. *)
Definition default_input (inp : list string) : list string :=
  match inp with [] => ["_"] | _ => inp end.

(** ** Tape primitives *)

(** [ndarray.resize(n, refcheck=False)]: truncate or pad with zeros. *)
Definition np_resize (t : list Z) (n : nat) : list Z :=
  take n t ++ replicate (n - length t) 0.

(** The body shared by both [perform_step] methods once a triple is
    chosen: write, move the head (growing the tape at the right end,
    clamping at 0 on the left), change state. *)
Definition apply_triple (c : Configuration) (tr : triple) : Configuration :=
  let '(to_state, tape_output, move_right) := tr in
  let t1 := <[position c := u8 tape_output]> (tape c) in
  if move_right then
    let p := S (position c) in
    let t2 := if Nat.eqb p (length t1) then np_resize t1 (S p) else t1 in
    mkConfiguration to_state t2 p
  else if (0 <? position c)%nat then
    mkConfiguration to_state t1 (position c - 1)
  else mkConfiguration to_state t1 (position c).

(** ** DeterministicTuringMachine *)

Definition DDescription := Description triple.

(** [DeterministicTuringMachine.perform_step]. *)
Definition det_perform_step (d : DDescription) (c : Configuration)
  : err + Configuration :=
  match tape c !! position c with
  | None => inl IndexError
  | Some tape_input =>
      match transitions d (state c) tape_input with
      | Some tr => inr (apply_triple c tr)
      | None =>
          (* move head right; go to rejecting state *)
          inr (mkConfiguration (rejecting d) (tape c) (S (position c)))
      end
  end.

(** ["{:5s}".format(s)]: left-justify in a field of width 5. *)
Definition fmt5 (s : string) : string :=
  s +:+ String.concat "" (replicate (5 - String.length s) " ").

(** [print_configuration]; the text goes to stdout and is returned here.
    The method reads the module-level name [description] (not
    [self.description]), passed as [glob]; [None] when unbound. *)
Definition print_configuration (glob : option DDescription)
  (c : Configuration) : err + string :=
  match glob with
  | None => inl NameError
  | Some g =>
      match states g !! state c with
      | None => inl IndexError
      | Some name =>
          letters <- decode (alphabet g) (tape c) ;;
          inr (" " +:+ fmt5 name +:+ " " +:+
               String.concat "" (imap (fun i l =>
                 if Nat.eqb i (position c)
                 then String.concat "" ["[91m"; l; " "; "[0m"]
                 else l +:+ " ") letters))
      end
  end.

(** [print] only when [verbose]. *)
Definition maybe_print (glob : option DDescription) (verbose : bool)
  (c : Configuration) : err + unit :=
  if verbose then _ <- print_configuration glob c ;; inr tt else inr tt.

(** Build the result from the final configuration. *)
Definition det_result (d : DDescription) (n : nat) (acc : bool)
  (c : Configuration) : err + Result :=
  letters <- decode (alphabet d) (tape c) ;;
  TuringMachineResult n acc (Some letters).

(** The [while True] loop of [process_input]. *)
Fixpoint det_loop (glob : option DDescription) (verbose : bool)
  (d : DDescription) (fuel : nat) (c : Configuration) (n : nat)
  : option (err + Result) :=
  match fuel with
  | O => None
  | S fuel' =>
      match det_perform_step d c with
      | inl e => Some (inl e)
      | inr c' =>
          match maybe_print glob verbose c' with
          | inl e => Some (inl e)
          | inr _ =>
              if Nat.eqb (state c') (accepting d) then Some (det_result d n true c')
              else if Nat.eqb (state c') (rejecting d) then Some (det_result d n false c')
              else det_loop glob verbose d fuel' c' (S n)
          end
      end
  end.

(** The names bound at module level in tm.py: [description] is not one
    of them (only the class [TuringMachineDescription] is imported). *)
Definition tm_module_description : option DDescription := None.

(** [DeterministicTuringMachine.process_input]. *)
Definition det_process_input_in (glob : option DDescription)
  (d : DDescription) (inp : list string) (verbose : bool) (fuel : nat)
  : option (err + Result) :=
  let inp := default_input inp in
  match encode (alphabet d) inp with
  | inl e => Some (inl e)
  | inr t =>
      let configuration := mkConfiguration 0 t 0 in
      match maybe_print glob verbose configuration with
      | inl e => Some (inl e)
      | inr _ => det_loop glob verbose d fuel configuration 0
      end
  end.

Definition det_process_input (d : DDescription) (inp : list string)
  (verbose : bool) (fuel : nat) : option (err + Result) :=
  det_process_input_in tm_module_description d inp verbose fuel.

(** The end-to-end example machine of the spec. *)
Definition ex_desc : DDescription :=
  mkDescription ["_"; "0"; "1"] ["q0"; "qacc"; "qrej"] 1%nat 2%nat
    (fun q a => if Nat.eqb q 0 && Z.eqb a 2 then Some (1%nat, 2, true) else None).

Example ex_run : det_process_input ex_desc ["1"] false 10
  = Some (inr (mkResult 0 true (Some ["1"]))).
Proof. reflexivity. Qed.

(** ** NondeterministicTuringMachine *)

Definition NDescription := Description (list triple).

(** What a [perform_step] generator does when [list(...)] drains it:
    it raises [AcceptException], or it yields a list of configurations. *)
Inductive step_out (C : Type) :=
| Raised
| Yielded (l : list C).
Arguments Raised {C}.
Arguments Yielded {C}.

(** *** Value semantics

    Every successor holds its own tape value; this is what the program
    computes when no two configurations share a tape array (the heap
    model below shows that [perform_step] keeps it so). *)

(** The [for i, (to_state, tape_output, move_right) in enumerate(...)]
    loop: accept raises, reject is dropped, anything else is yielded. *)
Fixpoint nd_fork (d : NDescription) (c : Configuration) (ts : list triple)
  : step_out Configuration :=
  match ts with
  | [] => Yielded []
  | tr :: rest =>
      let conf := apply_triple c tr in
      if Nat.eqb (state conf) (accepting d) then Raised
      else
        let r := nd_fork d c rest in
        if negb (Nat.eqb (state conf) (rejecting d)) then
          match r with Raised => Raised | Yielded l => Yielded (conf :: l) end
        else r
  end.

(** [NondeterministicTuringMachine.perform_step]. *)
Definition nd_perform_step (d : NDescription) (c : Configuration)
  : err + step_out Configuration :=
  match tape c !! position c with
  | None => inl IndexError
  | Some tape_input =>
      match transitions d (state c) tape_input with
      | None => inr (Yielded [])
      | Some ts => inr (nd_fork d c ts)
      end
  end.

(** [list(itertools.chain.from_iterable(self.perform_step(c) for c in
    configurations))], with the [AcceptException] caught by the caller. *)
Fixpoint nd_generation (d : NDescription) (cs : list Configuration)
  : err + step_out Configuration :=
  match cs with
  | [] => inr (Yielded [])
  | c :: rest =>
      r <- nd_perform_step d c ;;
      match r with
      | Raised => inr Raised
      | Yielded l =>
          r' <- nd_generation d rest ;;
          match r' with
          | Raised => inr Raised
          | Yielded l' => inr (Yielded (l ++ l'))
          end
      end
  end.

(** The [while True] loop of [process_input]. *)
Fixpoint nd_loop (d : NDescription) (fuel : nat) (cs : list Configuration)
  (n : nat) : option (err + Result) :=
  match fuel with
  | O => None
  | S fuel' =>
      match nd_generation d cs with
      | inl e => Some (inl e)
      | inr Raised => Some (TuringMachineResult n true None)
      | inr (Yielded []) => Some (TuringMachineResult n false None)
      | inr (Yielded cs') => nd_loop d fuel' cs' (S n)
      end
  end.

(** [NondeterministicTuringMachine.process_input]; [verbose] is unused
    (its only use is commented out). *)
Definition nd_process_input (d : NDescription) (inp : list string)
  (verbose : bool) (fuel : nat) : option (err + Result) :=
  let inp := default_input inp in
  match encode (alphabet d) inp with
  | inl e => Some (inl e)
  | inr t => nd_loop d fuel [mkConfiguration 0 t 0] 0
  end.

(** *** Heap semantics of [perform_step]

    A configuration points to its numpy array through a location; the
    store maps locations to array contents and allocates fresh ones. *)
Record HConfiguration := mkHConfiguration {
  hstate : nat;
  hloc : nat;
  hposition : nat
}.

Record Store := mkStore {
  heap : gmap nat (list Z);
  next_loc : nat
}.

(** [duplicate_configuration]: a new configuration over [tape.copy()]. *)
Definition duplicate_configuration (s : Store) (c : HConfiguration)
  : option (Store * HConfiguration) :=
  t ← heap s !! hloc c;
  Some (mkStore (<[next_loc s := t]> (heap s)) (S (next_loc s)),
        mkHConfiguration (hstate c) (next_loc s) (hposition c)).

(** The write/move/state change on [conf], in place on its array. *)
Definition apply_triple_h (s : Store) (conf : HConfiguration) (tr : triple)
  : option (Store * HConfiguration) :=
  t ← heap s !! hloc conf;
  let c' := apply_triple (mkConfiguration (hstate conf) t (hposition conf)) tr in
  Some (mkStore (<[hloc conf := tape c']> (heap s)) (next_loc s),
        mkHConfiguration (state c') (hloc conf) (position c')).

(** The loop: [conf = configuration if i == len(transitions) - 1 else
    self.duplicate_configuration(configuration)]. *)
Fixpoint nd_fork_h (d : NDescription) (c : HConfiguration) (ts : list triple)
  (s : Store) : option (step_out HConfiguration * Store) :=
  match ts with
  | [] => Some (Yielded [], s)
  | tr :: rest =>
      '(s1, conf) ← (match rest with [] => Some (s, c)
                     | _ => duplicate_configuration s c end);
      '(s2, conf') ← apply_triple_h s1 conf tr;
      if Nat.eqb (hstate conf') (accepting d) then Some (Raised, s2)
      else
        '(r, s3) ← nd_fork_h d c rest s2;
        if negb (Nat.eqb (hstate conf') (rejecting d)) then
          Some (match r with Raised => Raised | Yielded l => Yielded (conf' :: l) end, s3)
        else Some (r, s3)
  end.

Definition nd_perform_step_h (d : NDescription) (s : Store) (c : HConfiguration)
  : option (step_out HConfiguration * Store) :=
  t ← heap s !! hloc c;
  tape_input ← t !! hposition c;
  match transitions d (hstate c) tape_input with
  | None => Some (Yielded [], s)
  | Some ts => nd_fork_h d c ts s
  end.

(** Reading a heap configuration back as a value. *)
Definition view (s : Store) (h : HConfiguration) : option Configuration :=
  t ← heap s !! hloc h;
  Some (mkConfiguration (hstate h) t (hposition h)).

(** The triples a configuration's state/symbol pair maps to. *)
Definition succ_triples (d : NDescription) (c : Configuration) : list triple :=
  match tape c !! position c with
  | Some a => default [] (transitions d (state c) a)
  | None => []
  end.

Definition to_state_of (tr : triple) : nat := tr.1.1.

(** A nondeterministic machine forking two ways in [q0] on [1]. *)
Definition nd_fork_desc : NDescription :=
  mkDescription ["_"; "0"; "1"] ["q0"; "q1"; "qacc"; "qrej"] 2%nat 3%nat
    (fun q a => if Nat.eqb q 0 && Z.eqb a 2
                then Some [(1%nat, 2, true); (1%nat, 1, false)] else None).

Definition fork_store : Store := mkStore {[0%nat := [2]]} 1.
Definition fork_parent : HConfiguration := mkHConfiguration 0 0 0.

(** ** Runs of a machine, as the spec describes them *)

(** The head is on the tape. *)
Definition wf_conf (c : Configuration) : Prop := (position c < length (tape c))%nat.

(** All successors of a configuration, one per nondeterministic choice. *)
Definition succs (d : NDescription) (c : Configuration) : list Configuration :=
  map (apply_triple c) (succ_triples d c).

(** [nd_live d c0 g c]: [c] is reached from [c0] by [g] choices, none of
    which entered the accepting or the rejecting state. *)
Inductive nd_live (d : NDescription) (c0 : Configuration)
  : nat -> Configuration -> Prop :=
| nd_live_0 : nd_live d c0 0 c0
| nd_live_S g c c' :
    nd_live d c0 g c -> c' ∈ succs d c ->
    state c' <> accepting d -> state c' <> rejecting d ->
    nd_live d c0 (S g) c'.

(** A sequence of [m] choices from [c0] whose last one enters the
    accepting state. *)
Definition nd_accepting_path (d : NDescription) (c0 : Configuration) (m : nat) : Prop :=
  exists g c c', m = S g /\ nd_live d c0 g c /\ c' ∈ succs d c /\
                 state c' = accepting d.

(** A machine whose only accepting path has three choices
    ([q0 -> q1 -> q2 -> qacc]), next to a rejecting branch from [q1] and
    a longer branch [q1 -> q5 -> q2 -> qacc]. *)
Definition nd_depth3_desc : NDescription :=
  mkDescription ["_"; "0"; "1"] ["q0"; "q1"; "q2"; "qacc"; "qrej"; "q5"] 3%nat 4%nat
    (fun q a =>
       match q with
       | 0%nat => if Z.eqb a 0 then Some [(1%nat, 1, true)] else None
       | 1%nat => Some [(4%nat, 1, true); (5%nat, 1, true); (2%nat, 1, true)]
       | 5%nat => Some [(2%nat, 0, false)]
       | 2%nat => Some [(3%nat, 1, true)]
       | _ => None
       end).

Definition initial_configuration (t : list Z) : Configuration := mkConfiguration 0 t 0.

(** [det_live d c0 g c]: the deterministic run from [c0] reaches [c]
    after [g] steps without entering the accepting or rejecting state. *)
Inductive det_live (d : DDescription) (c0 : Configuration)
  : nat -> Configuration -> Prop :=
| det_live_0 : det_live d c0 0 c0
| det_live_S g c c' :
    det_live d c0 g c -> det_perform_step d c = inr c' ->
    state c' <> accepting d -> state c' <> rejecting d ->
    det_live d c0 (S g) c'.

(** The run enters the accepting state with its [m]-th transition,
    in configuration [c']. *)
Definition det_accepts_after (d : DDescription) (c0 : Configuration) (m : nat)
  (c' : Configuration) : Prop :=
  exists g c, m = S g /\ det_live d c0 g c /\ det_perform_step d c = inr c' /\
              state c' = accepting d.

(** Well-formed deterministic description: a blank symbol exists and every
    written symbol is an index of the alphabet. *)
Definition wf_ddesc (d : DDescription) : Prop :=
  (0 < length (alphabet d))%nat /\
  forall q a q' o mr, transitions d q a = Some (q', o, mr) ->
    0 <= o < Z.of_nat (length (alphabet d)).

(** Every tape cell holds an index of the alphabet. *)
Definition syms_ok (alph : list string) (t : list Z) : Prop :=
  Forall (fun x => 0 <= x < Z.of_nat (length alph)) t.

(** The configuration of the spec's example machine reading [0] in [q0],
    where no transition is defined, with the head on the last cell. *)
Definition stuck_conf : Configuration := mkConfiguration 0 [1] 0.

(** The symbol made of [S n] letters [a]. *)
Fixpoint a_string (n : nat) : string :=
  match n with
  | O => "a"
  | S m => String.append "a" (a_string m)
  end.

(** An alphabet of 257 distinct symbols: [_], [a], [aa], ... *)
Definition big_alphabet : list string := "_" :: map a_string (seq 0 256).

Definition parent_value (c : HConfiguration) (t : list Z) : Configuration :=
  mkConfiguration (hstate c) t (hposition c).

(** The parent's tape with one triple's output written at head position
    [p], plus the blank cell appended when the head moves off the end. *)
Definition written_tape (t : list Z) (p : nat) (tr : triple) : list Z :=
  let '(_, o, mr) := tr in
  <[p := u8 o]> t ++ (if mr && Nat.eqb (S p) (length t) then [0] else []).

Definition gen_accepts (d : NDescription) (cs : list Configuration) : bool :=
  existsb (fun c => existsb (fun c' => Nat.eqb (state c') (accepting d)) (succs d c)) cs.

Definition gen_next (d : NDescription) (cs : list Configuration) : list Configuration :=
  flat_map (fun c => filter (fun c' => state c' <> rejecting d) (succs d c)) cs.

Ltac in_succs := apply list_elem_of_In; vm_compute; auto 10.

(** ** TuringMachineResult.__str__ *)

(** [__str__]: the verdict line, [os.linesep] (the parameter [linesep]),
    [str(num_steps)] (the decimal numeral [pretty]), and, when a tape is
    stored, [os.linesep] and the symbols joined with no separator. *)
Definition result_str (linesep : string) (r : Result) : string :=
  (if accepted r then "accepted" else "not accepted") +:+ linesep +:+
  pretty (num_steps r) +:+
  (match res_tape r with
   | Some t => linesep +:+ String.concat "" t
   | None => ""
   end).

(** ** Relating the two engines *)

(** A deterministic description read as a nondeterministic one: each
    defined transition becomes the one-element list of its triple. *)
Definition lift_det (d : DDescription) : NDescription :=
  mkDescription (alphabet d) (states d) (accepting d) (rejecting d)
    (fun q a => option_map (fun tr => [tr]) (transitions d q a)).

(** An outcome with the result's tape dropped (the nondeterministic engine
    stores no tape). *)
Definition forget_tape (o : option (err + Result)) : option (err + Result) :=
  match o with
  | Some (inr r) => Some (inr (mkResult (num_steps r) (accepted r) None))
  | _ => o
  end.

(** The run enters the rejecting state (and not the accepting one) with
    its [m]-th transition, in configuration [c']. *)
Definition det_rejects_after (d : DDescription) (c0 : Configuration) (m : nat)
  (c' : Configuration) : Prop :=
  exists g c, m = S g /\ det_live d c0 g c /\ det_perform_step d c = inr c' /\
              state c' = rejecting d /\ state c' <> accepting d.

(** [c'] keeps every cell of [c] but the one under the head, adds at most
    one cell, and every added cell holds 0. *)
Definition tape_frame (c c' : Configuration) : Prop :=
  (length (tape c) <= length (tape c') <= S (length (tape c)))%nat /\
  (forall i, i <> position c -> (i < length (tape c))%nat ->
     tape c' !! i = tape c !! i) /\
  (forall i, (length (tape c) <= i < length (tape c'))%nat -> tape c' !! i = Some 0).

(** * Lemmas *)

Lemma state_apply_triple c tr : state (apply_triple c tr) = to_state_of tr.
Proof.
  destruct tr as [[q o] mr]; unfold apply_triple; simpl.
  destruct mr; [| destruct (0 <? position c)%nat]; reflexivity.
Qed.

Lemma configuration_eta c : mkConfiguration (state c) (tape c) (position c) = c.
Proof. destruct c; reflexivity. Qed.

Lemma nd_fork_h_cons d c tr rest s :
  nd_fork_h d c (tr :: rest) s =
  '(s1, conf) ← (match rest with [] => Some (s, c)
                 | _ => duplicate_configuration s c end);
  '(s2, conf') ← apply_triple_h s1 conf tr;
  if Nat.eqb (hstate conf') (accepting d) then Some (Raised, s2)
  else
    '(r, s3) ← nd_fork_h d c rest s2;
    if negb (Nat.eqb (hstate conf') (rejecting d)) then
      Some (match r with Raised => Raised | Yielded l => Yielded (conf' :: l) end, s3)
    else Some (r, s3).
Proof. reflexivity. Qed.

(** Which configuration the loop body works on. *)
Lemma fork_choice c (rest : list triple) s s1 conf t :
  heap s !! hloc c = Some t ->
  (match rest with [] => Some (s, c) | _ => duplicate_configuration s c end)
    = Some (s1, conf) ->
  (rest = [] /\ s1 = s /\ conf = c) \/
  (rest <> [] /\ s1 = mkStore (<[next_loc s := t]> (heap s)) (S (next_loc s)) /\
   conf = mkHConfiguration (hstate c) (next_loc s) (hposition c)).
Proof.
  intros Ht E. destruct rest as [|tr rest].
  - left. injection E as <- <-. auto.
  - right. unfold duplicate_configuration in E. rewrite Ht in E. simpl in E.
    injection E as <- <-. auto.
Qed.

(** Frame: [nd_fork_h] only touches the parent's array and fresh ones. *)
Lemma nd_fork_h_frame d c ts : forall s r s' t,
  heap s !! hloc c = Some t ->
  (hloc c < next_loc s)%nat ->
  nd_fork_h d c ts s = Some (r, s') ->
  (next_loc s <= next_loc s')%nat /\
  forall l, (l < next_loc s)%nat -> l <> hloc c -> heap s' !! l = heap s !! l.
Proof.
  induction ts as [|tr rest IH]; intros s r s' t Ht Hlt H.
  - simpl in H. injection H as <- <-. split; [lia | reflexivity].
  - rewrite nd_fork_h_cons in H.
    destruct (match rest with [] => Some (s, c) | _ => duplicate_configuration s c end)
      as [[s1 conf]|] eqn:E1; [| discriminate].
    cbn -[nd_fork_h] in H.
    destruct (apply_triple_h s1 conf tr) as [[s2 conf']|] eqn:E2; [| discriminate].
    cbn -[nd_fork_h] in H.
    apply (fork_choice _ _ _ _ _ t Ht) in E1.
    unfold apply_triple_h in E2.
    destruct E1 as [(-> & -> & ->) | (Hne & -> & ->)].
    + rewrite Ht in E2. simpl in E2. injection E2 as <- <-. simpl in H.
      destruct (Nat.eqb _ (accepting d)).
      * injection H as <- <-. simpl. split; [lia|].
        intros l _ Hl. by rewrite lookup_insert_ne.
      * simpl in H. destruct (negb _); injection H as <- <-; simpl;
          (split; [lia|]); intros l _ Hl; by rewrite lookup_insert_ne.
    + simpl in E2. rewrite lookup_insert_eq in E2. simpl in E2.
      injection E2 as <- <-. cbn -[nd_fork_h] in H.
      destruct (Nat.eqb _ (accepting d)).
      * injection H as <- <-. simpl. split; [lia|].
        intros l Hl Hl'. rewrite !lookup_insert_ne; [done | lia | lia].
      * destruct (nd_fork_h d c rest _) as [[r3 s3]|] eqn:Hr;
          simpl in H; [| discriminate].
        eapply IH in Hr as [Hn Hf].
        2: { simpl. rewrite !lookup_insert_ne; [exact Ht | lia | lia]. }
        2: { simpl. lia. }
        simpl in Hn, Hf.
        assert (s' = s3) as -> by (destruct (negb _); congruence).
        split; [lia|]. intros l Hl Hl'.
        rewrite Hf by lia. rewrite !lookup_insert_ne; [done | lia | lia].
Qed.

Lemma nd_fork_h_yield d c ts : forall s hs s' t,
  heap s !! hloc c = Some t ->
  (hloc c < next_loc s)%nat ->
  nd_fork_h d c ts s = Some (Yielded hs, s') ->
  map (view s') hs =
    map (fun tr => Some (apply_triple (parent_value c t) tr))
        (filter (fun tr => to_state_of tr <> rejecting d) ts) /\
  NoDup (map hloc hs) /\
  Forall (fun h => hloc h = hloc c \/ (next_loc s <= hloc h)%nat) hs.
Proof.
  induction ts as [|tr rest IH]; intros s hs s' t Ht Hlt H.
  - simpl in H. injection H as <- <-. simpl. repeat constructor.
  - rewrite nd_fork_h_cons in H.
    destruct (match rest with [] => Some (s, c) | _ => duplicate_configuration s c end)
      as [[s1 conf]|] eqn:E1; [| discriminate].
    cbn -[nd_fork_h] in H.
    destruct (apply_triple_h s1 conf tr) as [[s2 conf']|] eqn:E2; [| discriminate].
    cbn -[nd_fork_h] in H.
    apply (fork_choice _ _ _ _ _ t Ht) in E1.
    unfold apply_triple_h in E2.
    rewrite filter_cons.
    pose proof (state_apply_triple (parent_value c t) tr) as Hst.
    destruct E1 as [(-> & -> & ->) | (Hne & -> & ->)].
    + (* the last triple: the parent's own array is reused *)
      rewrite Ht in E2. simpl in E2. injection E2 as <- <-. simpl in H.
      fold (parent_value c t) in H |- *.
      destruct (Nat.eqb _ (accepting d)); [discriminate|].
      simpl in H. rewrite Hst in H.
      destruct (Nat.eqb (to_state_of tr) (rejecting d)) eqn:Er; simpl in H.
      * apply Nat.eqb_eq in Er. injection H as <- <-.
        rewrite decide_False by auto. simpl. repeat constructor.
      * apply Nat.eqb_neq in Er. injection H as <- <-.
        rewrite decide_True by auto. simpl.
        unfold view; simpl. rewrite lookup_insert_eq. simpl.
        rewrite <- Hst, configuration_eta.
        repeat constructor; auto. set_solver.
    + (* an earlier triple: a fresh copy of the parent's array *)
      simpl in E2. rewrite lookup_insert_eq in E2. simpl in E2.
      injection E2 as <- <-. cbn -[nd_fork_h] in H.
      fold (parent_value c t) in H |- *.
      destruct (Nat.eqb _ (accepting d)); [discriminate|].
      destruct (nd_fork_h d c rest _) as [[r3 s3]|] eqn:Hr;
        simpl in H; [| discriminate].
      pose proof Hr as Hfr.
      eapply nd_fork_h_frame in Hfr as [_ Hf];
        [| simpl; rewrite !lookup_insert_ne; [exact Ht | lia | lia] | simpl; lia].
      simpl in Hf.
      rewrite Hst in H.
      destruct (Nat.eqb (to_state_of tr) (rejecting d)) eqn:Er; simpl in H.
      * apply Nat.eqb_eq in Er. injection H as -> <-.
        rewrite decide_False by auto.
        eapply IH in Hr as (Hv & Hnd & Hfa);
          [| simpl; rewrite !lookup_insert_ne; [exact Ht | lia | lia] | simpl; lia].
        split; [exact Hv | split; [exact Hnd|]].
        simpl in Hfa. eapply Forall_impl; [exact Hfa|]. simpl; intros h [?|?]; [left|right]; lia.
      * apply Nat.eqb_neq in Er. destruct r3 as [|l3]; [discriminate|].
        injection H as <- <-.
        rewrite decide_True by auto.
        eapply IH in Hr as (Hv & Hnd & Hfa);
          [| simpl; rewrite !lookup_insert_ne; [exact Ht | lia | lia] | simpl; lia].
        simpl in Hfa. simpl. split; [|split].
        -- rewrite Hv. f_equal. unfold view; simpl.
           rewrite Hf by lia. rewrite lookup_insert_eq. simpl.
           rewrite <- Hst, configuration_eta. reflexivity.
        -- constructor; [| exact Hnd].
           intros Hin. apply list_elem_of_In, in_map_iff in Hin as (h & Hh & Hin).
           eapply List.Forall_forall in Hfa; [| exact Hin]. lia.
        -- constructor; [right; simpl; lia|].
           eapply Forall_impl; [exact Hfa|]. simpl; intros h [?|?]; [left|right]; lia.
Qed.

Lemma apply_triple_tape c tr :
  tape (apply_triple c tr) = written_tape (tape c) (position c) tr.
Proof.
  destruct tr as [[q o] mr]. unfold apply_triple, written_tape.
  destruct mr; cbn -[Nat.eqb np_resize].
  - rewrite length_insert.
    destruct (Nat.eqb (S (position c)) (length (tape c))) eqn:E; cbn -[np_resize].
    + apply Nat.eqb_eq in E. unfold np_resize. rewrite length_insert, E.
      rewrite take_ge by (rewrite length_insert; lia).
      replace (S (length (tape c)) - length (tape c))%nat with 1%nat by lia.
      reflexivity.
    + by rewrite app_nil_r.
  - rewrite app_nil_r. destruct (position c); reflexivity.
Qed.

Lemma map_view_forall2 s (hs : list HConfiguration) (cs : list Configuration) :
  map (view s) hs = map Some cs ->
  Forall2 (fun h c => heap s !! hloc h = Some (tape c) /\ hstate h = state c) hs cs.
Proof.
  revert cs. induction hs as [|h hs IH]; intros [|c cs] E; try discriminate.
  - constructor.
  - simpl in E. injection E as Eh Et. constructor; [|by apply IH].
    unfold view in Eh. destruct (heap s !! hloc h); simpl in Eh; [|discriminate].
    injection Eh as <-. auto.
Qed.

Lemma Forall2_map_r {A B C} (P : A -> C -> Prop) (f : B -> C) l k :
  Forall2 P l (map f k) -> Forall2 (fun x y => P x (f y)) l k.
Proof.
  revert l. induction k as [|y k IH]; intros l H; inversion H; subst; constructor; auto.
Qed.

(** ** Nondeterministic engine, value semantics *)

Lemma apply_triple_position c q o (mr : bool) :
  position (apply_triple c (q, o, mr)) =
  if mr then S (position c) else (position c - 1)%nat.
Proof.
  unfold apply_triple. destruct mr; cbn -[Nat.eqb np_resize insert].
  - reflexivity.
  - destruct (position c); reflexivity.
Qed.

Lemma apply_triple_wf c tr : wf_conf c -> wf_conf (apply_triple c tr).
Proof.
  unfold wf_conf. intros H. rewrite apply_triple_tape.
  destruct tr as [[q o] mr]. rewrite apply_triple_position.
  unfold written_tape. rewrite length_app, length_insert.
  destruct mr; [| simpl; lia].
  destruct (Nat.eqb (S (position c)) (length (tape c))) eqn:E; simpl.
  - apply Nat.eqb_eq in E. lia.
  - apply Nat.eqb_neq in E. lia.
Qed.

Lemma nd_fork_spec d c ts :
  nd_fork d c ts =
  if existsb (fun c' => Nat.eqb (state c') (accepting d)) (map (apply_triple c) ts)
  then Raised
  else Yielded (filter (fun c' => state c' <> rejecting d) (map (apply_triple c) ts)).
Proof.
  induction ts as [|tr ts IH]; [reflexivity|].
  simpl. rewrite filter_cons.
  destruct (Nat.eqb (state (apply_triple c tr)) (accepting d)) eqn:Ea; [reflexivity|].
  simpl. rewrite IH.
  destruct (Nat.eqb (state (apply_triple c tr)) (rejecting d)) eqn:Er; simpl.
  - apply Nat.eqb_eq in Er. rewrite decide_False by auto. reflexivity.
  - apply Nat.eqb_neq in Er. rewrite decide_True by auto.
    destruct (existsb _ _); reflexivity.
Qed.

Lemma nd_perform_step_spec d c :
  wf_conf c ->
  nd_perform_step d c =
  inr (if existsb (fun c' => Nat.eqb (state c') (accepting d)) (succs d c)
       then Raised
       else Yielded (filter (fun c' => state c' <> rejecting d) (succs d c))).
Proof.
  intros Hwf. unfold nd_perform_step, succs, succ_triples.
  destruct (tape c !! position c) as [a|] eqn:Ha.
  - destruct (transitions d (state c) a); simpl; [by rewrite nd_fork_spec | reflexivity].
  - apply lookup_ge_None in Ha. unfold wf_conf in Hwf. lia.
Qed.

Lemma nd_generation_spec d cs :
  Forall wf_conf cs ->
  nd_generation d cs = inr (if gen_accepts d cs then Raised else Yielded (gen_next d cs)).
Proof.
  unfold gen_accepts, gen_next.
  induction 1 as [|c cs Hc Hcs IH]; [reflexivity|].
  simpl. rewrite nd_perform_step_spec by exact Hc. simpl.
  destruct (existsb _ (succs d c)); simpl; [reflexivity|].
  rewrite IH. simpl. destruct (existsb _ cs); reflexivity.
Qed.

Section Search.
Variable d : NDescription.
Variable c0 : Configuration.
Hypothesis c0_wf : wf_conf c0.

Lemma elem_succs c c' : c' ∈ succs d c -> exists tr, c' = apply_triple c tr.
Proof.
  unfold succs. intros H. apply list_elem_of_In, in_map_iff in H as (tr & <- & _).
  eauto.
Qed.

Lemma live_wf g c : nd_live d c0 g c -> wf_conf c.
Proof.
  induction 1 as [|g c c' _ IH Hs _ _]; [exact c0_wf|].
  apply elem_succs in Hs as (tr & ->). by apply apply_triple_wf.
Qed.

Lemma live_prefix g c : nd_live d c0 g c -> forall k, (k <= g)%nat -> exists c', nd_live d c0 k c'.
Proof.
  induction 1 as [|g c c' Hl IH Hs Ha Hr]; intros k Hk.
  - assert (k = 0%nat) as -> by lia. eexists; constructor.
  - destruct (decide (k = S g)) as [->|Hne].
    + eexists. econstructor; eauto.
    + apply IH. lia.
Qed.

Lemma path_live m : nd_accepting_path d c0 m ->
  forall k, (S k <= m)%nat -> exists c, nd_live d c0 k c.
Proof.
  intros (g & c & c' & -> & Hl & _ & _) k Hk. eapply live_prefix; [exact Hl | lia].
Qed.

Section Generation.
Variable g : nat.
Variable cs : list Configuration.
Hypothesis cs_live : forall c, c ∈ cs <-> nd_live d c0 g c.

Lemma gen_wf : Forall wf_conf cs.
Proof.
  apply Forall_forall. intros c Hc. apply cs_live in Hc. by eapply live_wf.
Qed.

Lemma gen_accepts_iff : gen_accepts d cs = true <-> nd_accepting_path d c0 (S g).
Proof.
  unfold gen_accepts. rewrite existsb_exists. split.
  - intros (c & Hin & Hex). apply existsb_exists in Hex as (c' & Hin' & Heq).
    apply Nat.eqb_eq in Heq.
    exists g, c, c'. repeat split; auto.
    + apply cs_live, list_elem_of_In, Hin.
    + apply list_elem_of_In, Hin'.
  - intros (g' & c & c' & Heq & Hl & Hs & Ha). assert (g' = g) as -> by lia.
    exists c. split; [apply list_elem_of_In, cs_live, Hl|].
    apply existsb_exists. exists c'. split; [apply list_elem_of_In, Hs|].
    by apply Nat.eqb_eq.
Qed.

Lemma gen_next_iff : gen_accepts d cs = false ->
  forall c', c' ∈ gen_next d cs <-> nd_live d c0 (S g) c'.
Proof.
  intros Hna c'. unfold gen_next. rewrite list_elem_of_In, in_flat_map. split.
  - intros (c & Hin & Hin'). apply list_elem_of_In, list_elem_of_filter in Hin' as [Hr Hs].
    econstructor; eauto.
    + apply cs_live, list_elem_of_In, Hin.
    + intros Ha. assert (gen_accepts d cs = true); [|congruence].
      apply gen_accepts_iff. exists g, c, c'. repeat split; auto.
      apply cs_live, list_elem_of_In, Hin.
  - intros Hl. inversion Hl as [|g1 c c1 Hl' Hs Ha Hr]; subst.
    exists c. split; [apply list_elem_of_In, cs_live, Hl'|].
    apply list_elem_of_In, list_elem_of_filter. auto.
Qed.
End Generation.

Lemma nd_loop_sound fuel : forall g cs r,
  (forall c, c ∈ cs <-> nd_live d c0 g c) ->
  (forall m, (m <= g)%nat -> ~ nd_accepting_path d c0 m) ->
  nd_loop d fuel cs g = Some r ->
  (exists n, r = inr (mkResult n true None) /\ nd_accepting_path d c0 (S n) /\
             forall m, nd_accepting_path d c0 m -> (S n <= m)%nat) \/
  (exists n, r = inr (mkResult n false None) /\ forall m, ~ nd_accepting_path d c0 m).
Proof.
  induction fuel as [|fuel IH]; intros g cs r Hcs Hno H; simpl in H; [discriminate|].
  rewrite (nd_generation_spec d cs (gen_wf g cs Hcs)) in H.
  destruct (gen_accepts d cs) eqn:Ega.
  - injection H as <-. left. exists g. split; [reflexivity|].
    split; [by apply (gen_accepts_iff g cs Hcs)|].
    intros m Hm. destruct (decide (m <= g)%nat); [exfalso; by eapply Hno | lia].
  - pose proof (gen_next_iff g cs Hcs Ega) as Hnext.
    destruct (gen_next d cs) as [|c1 cs1] eqn:Egn.
    + injection H as <-. right. exists g. split; [reflexivity|].
      intros m Hm.
      destruct (decide (m <= g)%nat); [by eapply Hno|].
      destruct (decide (m = S g)) as [->|Hne].
      * apply (gen_accepts_iff g cs Hcs) in Hm. congruence.
      * destruct (path_live m Hm (S g)) as [c Hc]; [lia|].
        apply Hnext in Hc. set_solver.
    + eapply IH; [exact Hnext | | exact H].
      intros m Hm Hp. destruct (decide (m <= g)%nat); [by eapply Hno|].
      assert (m = S g) as -> by lia.
      apply (gen_accepts_iff g cs Hcs) in Hp. congruence.
Qed.

Lemma nd_loop_complete fuel : forall g cs g',
  (forall c, c ∈ cs <-> nd_live d c0 g c) ->
  (g <= g')%nat -> nd_accepting_path d c0 (S g') -> (g' - g < fuel)%nat ->
  exists n, nd_loop d fuel cs g = Some (inr (mkResult n true None)).
Proof.
  induction fuel as [|fuel IH]; intros g cs g' Hcs Hle Hp Hf; [lia|]. simpl.
  rewrite (nd_generation_spec d cs (gen_wf g cs Hcs)).
  destruct (gen_accepts d cs) eqn:Ega; [by eexists|].
  assert (Hlt : (g < g')%nat).
  { destruct (decide (g = g')) as [->|]; [|lia].
    apply (gen_accepts_iff g' cs Hcs) in Hp. congruence. }
  pose proof (gen_next_iff g cs Hcs Ega) as Hnext.
  destruct (gen_next d cs) as [|c1 cs1] eqn:Egn.
  - destruct (path_live (S g') Hp (S g)) as [c Hc]; [lia|].
    apply Hnext in Hc. set_solver.
  - apply (IH (S g) (c1 :: cs1) g'); [exact Hnext | lia | exact Hp | lia].
Qed.
End Search.

(** C3 (fork isolation).  In the nondeterministic engine, let a parent
    configuration own the array at [hloc c] holding [t].  After
    [perform_step] has drained, every yielded successor (one per triple of
    the state/symbol pair whose target is not the rejecting state, in
    order) holds in its own array exactly the parent's tape with that
    successor's own output written at the parent's head position (and a
    blank appended when it moved off the end); the successors' arrays are
    pairwise distinct, and each is either the parent's array or a fresh
    copy, so no sibling's write is observable in another. *)
Theorem nd_fork_isolation (d : NDescription) (s s' : Store) (c : HConfiguration)
  (t : list Z) (hs : list HConfiguration) :
  heap s !! hloc c = Some t ->
  (hloc c < next_loc s)%nat ->
  nd_perform_step_h d s c = Some (Yielded hs, s') ->
  Forall2 (fun h tr => heap s' !! hloc h = Some (written_tape t (hposition c) tr) /\
                       hstate h = to_state_of tr)
    hs (filter (fun tr => to_state_of tr <> rejecting d)
               (succ_triples d (parent_value c t))) /\
  NoDup (map hloc hs) /\
  Forall (fun h => hloc h = hloc c \/ (next_loc s <= hloc h)%nat) hs.
Proof.
  intros Ht Hlt Hstep. unfold nd_perform_step_h in Hstep.
  rewrite Ht in Hstep. simpl in Hstep.
  unfold succ_triples, parent_value; simpl.
  destruct (t !! hposition c) as [a|] eqn:Ha; simpl in Hstep; [| discriminate].
  destruct (transitions d (hstate c) a) as [ts|] eqn:Etr; simpl.
  - eapply nd_fork_h_yield in Hstep as (Hv & Hnd & Hfa); [| exact Ht | exact Hlt].
    split; [| split; assumption].
    rewrite <- (map_map (apply_triple (parent_value c t)) Some) in Hv.
    apply map_view_forall2, Forall2_map_r in Hv.
    eapply Forall2_impl; [exact Hv|]. intros h tr [H1 H2]. split.
    + rewrite H1, apply_triple_tape. reflexivity.
    + rewrite H2. apply state_apply_triple.
  - injection Hstep as <- <-. repeat constructor.
Qed.

Lemma nd_fork_isolation_witness :
  exists hs s',
  nd_perform_step_h nd_fork_desc fork_store fork_parent = Some (Yielded hs, s') /\
  Forall2 (fun h tr => heap s' !! hloc h = Some (written_tape [2] 0 tr) /\
                       hstate h = to_state_of tr)
    hs (filter (fun tr => to_state_of tr <> rejecting nd_fork_desc)
               (succ_triples nd_fork_desc (parent_value fork_parent [2]))) /\
  NoDup (map hloc hs) /\
  Forall (fun h => hloc h = hloc fork_parent \/ (next_loc fork_store <= hloc h)%nat) hs.
Proof.
  eexists; eexists. split; [vm_compute; reflexivity|].
  apply (nd_fork_isolation nd_fork_desc fork_store _ fork_parent [2] _);
    [reflexivity | simpl; lia | vm_compute; reflexivity].
Defined.

Lemma encode_length alph inp t : encode alph inp = inr t -> length t = length inp.
Proof.
  revert t. induction inp as [|x inp IH]; intros t H; simpl in H.
  - by injection H as <-.
  - destruct (index_of x alph); [|discriminate].
    destruct (encode alph inp) eqn:E; simpl in H; [discriminate|].
    injection H as <-. simpl. f_equal. by apply IH.
Qed.

Lemma initial_wf alph inp t :
  encode alph (default_input inp) = inr t -> wf_conf (initial_configuration t).
Proof.
  intros H. apply encode_length in H. unfold wf_conf; simpl. rewrite H.
  destruct inp; simpl; lia.
Qed.

(** C2 (corrected).  For a nondeterministic machine and a valid input:
    if [process_input] accepts with [num_steps = n], an accepting sequence
    of [n + 1] choices exists and none is shorter; if it rejects, no
    accepting sequence exists; and if an accepting sequence of [m] choices
    exists, [process_input] accepts with [num_steps + 1 <= m].  So
    [num_steps] is the length of the shortest accepting path minus one. *)
Theorem nd_process_input_shortest (d : NDescription) (inp : list string)
  (verbose : bool) (t : list Z) :
  encode (alphabet d) (default_input inp) = inr t ->
  (forall fuel n,
     nd_process_input d inp verbose fuel = Some (inr (mkResult n true None)) ->
     nd_accepting_path d (initial_configuration t) (S n) /\
     forall m, nd_accepting_path d (initial_configuration t) m -> (S n <= m)%nat) /\
  (forall fuel n,
     nd_process_input d inp verbose fuel = Some (inr (mkResult n false None)) ->
     forall m, ~ nd_accepting_path d (initial_configuration t) m) /\
  (forall m, nd_accepting_path d (initial_configuration t) m ->
     exists fuel n,
       nd_process_input d inp verbose fuel = Some (inr (mkResult n true None)) /\
       (S n <= m)%nat).
Proof.
  intros Henc. pose proof (initial_wf _ _ _ Henc) as Hwf.
  assert (Hcs : forall c, c ∈ [initial_configuration t] <->
                nd_live d (initial_configuration t) 0 c).
  { intros c. rewrite list_elem_of_singleton. split.
    - intros ->. constructor.
    - intros Hl. by inversion Hl. }
  assert (Hno : forall m, (m <= 0)%nat -> ~ nd_accepting_path d (initial_configuration t) m).
  { intros m Hm (g & c & c' & -> & _). lia. }
  unfold nd_process_input. rewrite Henc.
  split; [|split].
  - intros fuel n H.
    destruct (nd_loop_sound d _ Hwf fuel 0 _ _ Hcs Hno H)
      as [(n' & Hr & Hp & Hmin) | (n' & Hr & _)]; [|discriminate].
    injection Hr as <-. auto.
  - intros fuel n H.
    destruct (nd_loop_sound d _ Hwf fuel 0 _ _ Hcs Hno H)
      as [(n' & Hr & _) | (n' & Hr & Hnone)]; [discriminate|]. exact Hnone.
  - intros m Hm. pose proof Hm as (g & c & c' & -> & _).
    destruct (nd_loop_complete d _ Hwf (S g) 0 _ g Hcs ltac:(lia) Hm ltac:(lia))
      as [n Hn].
    exists (S g), n. split; [exact Hn|].
    destruct (nd_loop_sound d _ Hwf (S g) 0 _ _ Hcs Hno Hn)
      as [(n' & Hr & _ & Hmin) | (n' & Hr & _)]; [|discriminate].
    injection Hr as <-. by apply Hmin.
Qed.

Lemma nd_process_input_shortest_witness :
  encode (alphabet nd_depth3_desc) (default_input []) = inr [0] /\
  ((forall fuel n,
     nd_process_input nd_depth3_desc [] false fuel = Some (inr (mkResult n true None)) ->
     nd_accepting_path nd_depth3_desc (initial_configuration [0]) (S n) /\
     forall m, nd_accepting_path nd_depth3_desc (initial_configuration [0]) m -> (S n <= m)%nat) /\
  (forall fuel n,
     nd_process_input nd_depth3_desc [] false fuel = Some (inr (mkResult n false None)) ->
     forall m, ~ nd_accepting_path nd_depth3_desc (initial_configuration [0]) m) /\
  (forall m, nd_accepting_path nd_depth3_desc (initial_configuration [0]) m ->
     exists fuel n,
       nd_process_input nd_depth3_desc [] false fuel = Some (inr (mkResult n true None)) /\
       (S n <= m)%nat)).
Proof.
  split; [reflexivity|].
  apply (nd_process_input_shortest nd_depth3_desc [] false [0]). reflexivity.
Defined.

(** C2, as stated, fails: the shortest accepting path of [nd_depth3_desc]
    on the empty input has three choices, and [process_input] reports
    [num_steps = 2]. *)
Lemma nd_depth3_counterexample :
  nd_process_input nd_depth3_desc [] false 10 = Some (inr (mkResult 2 true None)) /\
  nd_accepting_path nd_depth3_desc (initial_configuration [0]) 3 /\
  (forall m, nd_accepting_path nd_depth3_desc (initial_configuration [0]) m -> (3 <= m)%nat).
Proof.
  split; [vm_compute; reflexivity|]. split.
  - exists 2%nat, (mkConfiguration 2 [1; 1; 0] 2), (mkConfiguration 3 [1; 1; 1; 0] 3).
    repeat split; [| in_succs].
    econstructor; [econstructor; [constructor| in_succs | discriminate | discriminate]
                  | in_succs | discriminate | discriminate].
  - intros m Hm.
    assert (Hcs : forall c, c ∈ [initial_configuration [0]] <->
                  nd_live nd_depth3_desc (initial_configuration [0]) 0 c).
    { intros c. rewrite list_elem_of_singleton. split.
      - intros ->. constructor.
      - intros Hl. by inversion Hl. }
    assert (Hrun : nd_loop nd_depth3_desc 10 [initial_configuration [0]] 0
                   = Some (inr (mkResult 2 true None))) by (vm_compute; reflexivity).
    destruct (nd_loop_sound nd_depth3_desc (initial_configuration [0]) ltac:(unfold wf_conf; simpl; lia) 10 0 _ _
                Hcs ltac:(intros m' Hm' (g & c & c' & -> & _); lia) Hrun)
      as [(n & Hr & _ & Hmin) | (n & Hr & _)]; [|discriminate].
    injection Hr as <-. by apply Hmin.
Qed.

(** ** Deterministic engine *)

Lemma u8_ok n x : (0 < n)%nat -> 0 <= x < Z.of_nat n -> 0 <= u8 x < Z.of_nat n.
Proof.
  intros Hn Hx. unfold u8.
  destruct (Z.lt_ge_cases (Z.of_nat n) 256).
  - rewrite Z.mod_small by lia. lia.
  - pose proof (Z.mod_pos_bound x 256 ltac:(lia)). lia.
Qed.

Lemma encode_ok alph inp t : encode alph inp = inr t -> syms_ok alph t.
Proof.
  unfold syms_ok. revert t. induction inp as [|x inp IH]; intros t H; simpl in H.
  - by injection H as <-.
  - destruct (index_of x alph) as [i|] eqn:Ei; [|discriminate].
    destruct (encode alph inp) eqn:E; simpl in H; [discriminate|].
    injection H as <-. constructor; [|by apply IH].
    assert (Hi : (i < length alph)%nat).
    { clear -Ei. revert i Ei. induction alph as [|y alph IHa]; intros i Ei; simpl in Ei;
        [discriminate|].
      destruct (String.eqb x y); [injection Ei as <-; simpl; lia|].
      destruct (index_of x alph) as [j|]; simpl in Ei; [|discriminate].
      injection Ei as <-. specialize (IHa j eq_refl). simpl. lia. }
    apply u8_ok; lia.
Qed.

Lemma det_step_syms_ok d c c' :
  wf_ddesc d -> syms_ok (alphabet d) (tape c) ->
  det_perform_step d c = inr c' -> syms_ok (alphabet d) (tape c').
Proof.
  intros [Hpos Hout] Hs H. unfold det_perform_step in H.
  destruct (tape c !! position c) as [a|]; [|discriminate].
  destruct (transitions d (state c) a) as [tr|] eqn:Et;
    [| assert (c' = mkConfiguration (rejecting d) (tape c) (S (position c))) as -> by congruence;
       exact Hs].
  assert (c' = apply_triple c tr) as -> by congruence.
  rewrite apply_triple_tape. destruct tr as [[q o] mr]. unfold written_tape, syms_ok.
  apply Forall_app. split.
  - apply Forall_insert; [exact Hs|]. apply u8_ok; [lia|]. by eapply Hout.
  - destruct (mr && _); repeat constructor; lia.
Qed.

Lemma decode_ok alph t : syms_ok alph t ->
  exists l, decode alph t = inr l /\ length l = length t.
Proof.
  unfold syms_ok. induction 1 as [|x t Hx Ht IH]; [by exists []|].
  destruct IH as (l & Hl & Hlen). simpl.
  destruct (lookup_lt_is_Some_2 alph (Z.to_nat x)) as [y Hy]; [lia|].
  rewrite Hy. simpl. rewrite Hl. simpl. exists (y :: l). split; [done|]. simpl. lia.
Qed.

Lemma trim_tape_ok t : t <> [] -> exists t', trim_tape t = inr t'.
Proof.
  intros Hne. unfold trim_tape, loop_var_i.
  destruct (break_index (rev t) 0); [by eexists|].
  destruct t; [done|]. by eexists.
Qed.

Lemma det_result_fields d n acc c r :
  det_result d n acc c = inr r -> num_steps r = n /\ accepted r = acc.
Proof.
  unfold det_result. destruct (decode (alphabet d) (tape c)); simpl; [discriminate|].
  unfold TuringMachineResult. destruct (trim_tape l); [discriminate|].
  intros H; injection H as <-. auto.
Qed.

Lemma det_result_ok d n acc c :
  syms_ok (alphabet d) (tape c) -> tape c <> [] ->
  exists r, det_result d n acc c = inr r.
Proof.
  intros Hs Hne. destruct (decode_ok _ _ Hs) as (l & Hl & Hlen).
  unfold det_result. rewrite Hl. simpl.
  destruct (trim_tape_ok l) as [t' Ht']; [destruct l, (tape c); simpl in *; congruence|].
  unfold TuringMachineResult. rewrite Ht'. by eexists.
Qed.

Lemma det_step_nonempty d c c' :
  det_perform_step d c = inr c' -> tape c <> [] -> tape c' <> [].
Proof.
  intros Hs Hne. unfold det_perform_step in Hs.
  destruct (tape c !! position c) as [a|]; [|discriminate].
  destruct (transitions d (state c) a) as [tr|];
    [| assert (c' = mkConfiguration (rejecting d) (tape c) (S (position c))) as -> by congruence;
       exact Hne].
  assert (c' = apply_triple c tr) as -> by congruence.
  rewrite apply_triple_tape. destruct tr as [[q o] mr]. unfold written_tape.
  intros Hnil. apply app_eq_nil in Hnil as [Hnil _].
  apply Hne. by apply (f_equal length) in Hnil; rewrite length_insert in Hnil; destruct (tape c).
Qed.

Section DetRun.
Variable d : DDescription.
Variable c0 : Configuration.
Variable glob : option DDescription.

Lemma det_live_functional g c1 : det_live d c0 g c1 ->
  forall c2, det_live d c0 g c2 -> c1 = c2.
Proof.
  induction 1 as [|g c c' Hl IH Hs Ha Hr]; intros c2 H2; inversion H2; subst; [done|].
  match goal with H : det_live _ _ g ?y |- _ => apply IH in H; subst y end.
  congruence.
Qed.

Lemma det_live_prefix g c : det_live d c0 g c ->
  forall k, (k <= g)%nat -> exists c', det_live d c0 k c'.
Proof.
  induction 1 as [|g c c' Hl IH Hs Ha Hr]; intros k Hk.
  - assert (k = 0%nat) as -> by lia. eexists; constructor.
  - destruct (decide (k = S g)) as [->|Hne].
    + eexists. econstructor; eauto.
    + apply IH. lia.
Qed.

Lemma det_live_inv (Hwf : wf_ddesc d) g c :
  syms_ok (alphabet d) (tape c0) -> tape c0 <> [] ->
  det_live d c0 g c -> syms_ok (alphabet d) (tape c) /\ tape c <> [].
Proof.
  intros Hs0 Hne0. induction 1 as [|g c c' Hl IH Hs Ha Hr]; [auto|].
  destruct IH as [IHs IHne]. split; [eapply det_step_syms_ok; eauto|].
  by eapply det_step_nonempty.
Qed.

Lemma det_loop_sound fuel : forall g c r,
  det_live d c0 g c -> det_loop glob false d fuel c g = Some (inr r) ->
  accepted r = true ->
  exists c', det_accepts_after d c0 (S (num_steps r)) c' /\
             det_result d (num_steps r) true c' = inr r.
Proof.
  induction fuel as [|fuel IH]; intros g c r Hl H Hacc; simpl in H; [discriminate|].
  destruct (det_perform_step d c) as [e|c'] eqn:Hs; [discriminate|].
  unfold maybe_print in H.
  destruct (Nat.eqb (state c') (accepting d)) eqn:Ea.
  - injection H as H. apply det_result_fields in H as Hf. destruct Hf as [Hn _].
    exists c'. rewrite Hn. split; [|exact H].
    exists g, c. apply Nat.eqb_eq in Ea. auto.
  - destruct (Nat.eqb (state c') (rejecting d)) eqn:Er.
    + injection H as H. apply det_result_fields in H as [_ Hf]. congruence.
    + eapply IH; [| exact H | exact Hacc].
      econstructor; eauto; [apply Nat.eqb_neq, Ea | apply Nat.eqb_neq, Er].
Qed.

Lemma det_loop_complete fuel : forall g c g' c',
  det_live d c0 g c -> (g <= g')%nat -> det_accepts_after d c0 (S g') c' ->
  (g' - g < fuel)%nat ->
  det_loop glob false d fuel c g = Some (det_result d g' true c').
Proof.
  induction fuel as [|fuel IH]; intros g c g' c' Hl Hle Hacc Hf; [lia|].
  destruct Hacc as (g1 & c1 & Heq & Hl1 & Hs1 & Ha1).
  assert (g1 = g') as -> by lia. simpl.
  destruct (decide (g = g')) as [->|Hne].
  - rewrite (det_live_functional _ _ Hl _ Hl1), Hs1. unfold maybe_print.
    by rewrite Ha1, Nat.eqb_refl.
  - destruct (det_live_prefix _ _ Hl1 (S g)) as [x Hx]; [lia|].
    inversion Hx as [|g2 y x' Hy Hsy Hay Hry]; subst.
    rewrite (det_live_functional _ _ Hl _ Hy), Hsy. unfold maybe_print.
    apply Nat.eqb_neq in Hay, Hry. rewrite Hay, Hry.
    apply IH; [exact Hx | lia | | lia]. exists g', c1. auto.
Qed.
End DetRun.

(** C1 (corrected).  For a well-formed deterministic machine and a valid
    input: whenever [process_input] returns an accepting result, the run
    enters the accepting state with its [num_steps + 1]-th transition
    (and the result's tape is the trimmed decoding of the final tape);
    and whenever the run enters the accepting state with its [m]-th
    transition, [process_input] returns [accepted = True] with
    [num_steps = m - 1].  On the spec's example machine and input "1",
    the result is [num_steps = 0], [accepted = True], [tape = ["1"]]. *)
Theorem det_process_input_accepts (d : DDescription) (inp : list string) (t : list Z) :
  wf_ddesc d ->
  encode (alphabet d) (default_input inp) = inr t ->
  (forall fuel r,
     det_process_input d inp false fuel = Some (inr r) -> accepted r = true ->
     exists c', det_accepts_after d (initial_configuration t) (S (num_steps r)) c' /\
                det_result d (num_steps r) true c' = inr r) /\
  (forall m c', det_accepts_after d (initial_configuration t) m c' ->
     exists fuel r, det_process_input d inp false fuel = Some (inr r) /\
                    accepted r = true /\ S (num_steps r) = m) /\
  det_process_input ex_desc ["1"] false 1 = Some (inr (mkResult 0 true (Some ["1"]))).
Proof.
  intros Hwf Henc.
  assert (Hs0 : syms_ok (alphabet d) (tape (initial_configuration t))) by
    (eapply encode_ok; exact Henc).
  assert (Hne0 : tape (initial_configuration t) <> []).
  { pose proof (initial_wf _ _ _ Henc) as Hw. unfold wf_conf in Hw.
    intros Hn. rewrite Hn in Hw. simpl in Hw. lia. }
  unfold det_process_input, det_process_input_in. rewrite Henc.
  unfold maybe_print. split; [|split; [|reflexivity]].
  - intros fuel r H Hacc.
    eapply det_loop_sound; [constructor | exact H | exact Hacc].
  - intros m c' Hacc. pose proof Hacc as (g & c & -> & Hl & Hs & Ha).
    destruct (det_live_inv d _ Hwf g c Hs0 Hne0 Hl) as [Hsc Hnec].
    destruct (det_result_ok d g true c') as [r Hr];
      [eapply det_step_syms_ok; eauto | by eapply det_step_nonempty|].
    exists (S g), r.
    rewrite (det_loop_complete d (mkConfiguration 0 t 0) tm_module_description (S g) 0 (mkConfiguration 0 t 0) g c');
      [| constructor | lia | exact Hacc | lia].
    rewrite Hr. apply det_result_fields in Hr as [Hn Ha'].
    repeat split; auto.
Qed.

Lemma ex_desc_wf : wf_ddesc ex_desc.
Proof.
  split; [simpl; lia|]. intros q a q' o mr H. simpl in H.
  destruct (Nat.eqb q 0 && Z.eqb a 2); [injection H as _ <- _; simpl; lia | discriminate].
Qed.

Lemma det_process_input_accepts_witness :
  wf_ddesc ex_desc /\ encode (alphabet ex_desc) (default_input ["1"]) = inr [2] /\
  ((forall fuel r,
     det_process_input ex_desc ["1"] false fuel = Some (inr r) -> accepted r = true ->
     exists c', det_accepts_after ex_desc (initial_configuration [2]) (S (num_steps r)) c' /\
                det_result ex_desc (num_steps r) true c' = inr r) /\
  (forall m c', det_accepts_after ex_desc (initial_configuration [2]) m c' ->
     exists fuel r, det_process_input ex_desc ["1"] false fuel = Some (inr r) /\
                    accepted r = true /\ S (num_steps r) = m) /\
  det_process_input ex_desc ["1"] false 1 = Some (inr (mkResult 0 true (Some ["1"])))).
Proof.
  split; [exact ex_desc_wf|]. split; [reflexivity|].
  exact (det_process_input_accepts ex_desc ["1"] [2] ex_desc_wf eq_refl).
Defined.

(** C1, as stated, fails on the spec's own example: the run applies one
    transition ([q0] on [1] to [qacc]) and [process_input] reports
    [num_steps = 0], not 1. *)
Lemma det_example_counterexample :
  det_accepts_after ex_desc (initial_configuration [2]) 1 (mkConfiguration 1 [2; 0] 1) /\
  det_process_input ex_desc ["1"] false 10 = Some (inr (mkResult 0 true (Some ["1"]))).
Proof.
  split; [|reflexivity].
  exists 0%nat, (initial_configuration [2]).
  split; [reflexivity|]. split; [constructor|]. split; reflexivity.
Qed.

(** ** Result construction *)

Lemma rev_replicate {A} n (x : A) : rev (replicate n x) = replicate n x.
Proof.
  induction n as [|n IH]; [done|]. simpl. rewrite IH.
  by rewrite <- replicate_S_end.
Qed.

Lemma snoc_not_nil {A} (l : list A) x : l ++ [x] <> [].
Proof. destruct l; discriminate. Qed.

Lemma break_index_cases u : forall i,
  (exists k x rest, u = replicate k "_" ++ x :: rest /\ x <> "_" /\
     break_index u i = Some (i + k)%nat /\ drop_blanks u = x :: rest) \/
  (u = replicate (length u) "_" /\ break_index u i = None /\ drop_blanks u = []).
Proof.
  induction u as [|y u IH]; intros i; [right; done|].
  simpl. destruct (String.eqb_spec y "_") as [->|Hne].
  - destruct (IH (S i)) as [(k & x & rest & Hu & Hx & Hb & Hd) | (Hu & Hb & Hd)].
    + left. exists (S k), x, rest. rewrite Hu at 1. rewrite Hb, Hd.
      repeat split; [done | f_equal; lia].
    + right. rewrite Hu at 1. rewrite Hb, Hd. done.
  - left. exists 0%nat, y, u. rewrite Nat.add_0_r. auto.
Qed.

Lemma trim_tape_spec t : t <> [] -> trim_tape t = inr (spec_trim t).
Proof.
  intros Hne. unfold trim_tape, loop_var_i, spec_trim.
  destruct (break_index_cases (rev t) 0)
    as [(k & x & rest & Hu & Hx & Hb & Hd) | (Hu & Hb & Hd)];
    rewrite Hb, Hd.
  - assert (Ht : t = rev rest ++ [x] ++ replicate k "_").
    { rewrite <- (rev_involutive t), Hu, rev_app_distr, rev_replicate. simpl.
      by rewrite <- app_assoc. }
    simpl. destruct (0 <? k)%nat eqn:Ek.
    + assert (Htake : take (length t - k) t = rev rest ++ [x]).
      { rewrite Ht at 2. rewrite app_assoc, take_app_length'; [done|].
        rewrite Ht, !length_app, length_replicate. lia. }
      rewrite Htake. rewrite decide_False by apply snoc_not_nil.
      destruct (rev rest ++ [x]) eqn:E; [by apply snoc_not_nil in E | reflexivity].
    + apply Nat.ltb_ge in Ek. assert (k = 0%nat) as -> by lia.
      rewrite Ht. simpl.
      rewrite decide_False by apply snoc_not_nil.
      destruct (rev rest ++ [x]) eqn:E; [by apply snoc_not_nil in E | reflexivity].
  - simpl. rewrite length_rev in Hu.
    assert (Ht : t = replicate (length t) "_").
    { apply (f_equal (@rev string)) in Hu. by rewrite rev_involutive, rev_replicate in Hu. }
    destruct t as [|y t']; [done|]. simpl in Ht. injection Ht as -> Ht'.
    destruct t' as [|z t''].
    + simpl. repeat case_match; reflexivity.
    + assert (E1 : (0 <? length ("_" :: z :: t'') - 1)%nat = true)
        by (apply Nat.ltb_lt; simpl; lia).
      assert (E2 : (length ("_" :: z :: t'') - (length ("_" :: z :: t'') - 1) = 1)%nat)
        by (simpl; lia).
      rewrite E1, E2. simpl. repeat case_match; reflexivity.
Qed.

Example trim_example_1 :
  TuringMachineResult 0 true (Some ["1"; "0"; "_"; "_"]) = inr (mkResult 0 true (Some ["1"; "0"])).
Proof. reflexivity. Qed.

Example trim_example_2 :
  TuringMachineResult 0 true (Some ["_"; "_"]) = inr (mkResult 0 true (Some ["_"])).
Proof. reflexivity. Qed.

(** C5.  For a non-empty tape, [TuringMachineResult] stores the tape with
    all trailing blanks removed, keeping a lone blank when nothing is
    left; the stored tape ends in a blank only when it is exactly
    [["_"]]. *)
Theorem result_tape_trimmed (n : nat) (acc : bool) (t : list string) :
  t <> [] ->
  TuringMachineResult n acc (Some t) = inr (mkResult n acc (Some (spec_trim t))) /\
  spec_trim t <> [] /\
  (forall pre, spec_trim t = pre ++ ["_"] -> spec_trim t = ["_"]).
Proof.
  intros Hne. unfold TuringMachineResult. rewrite (trim_tape_spec t Hne).
  split; [reflexivity|].
  unfold spec_trim.
  destruct (break_index_cases (rev t) 0)
    as [(k & x & rest & Hu & Hx & Hb & Hd) | (Hu & Hb & Hd)]; rewrite Hd; simpl.
  - destruct (rev rest ++ [x]) as [|y l] eqn:E; [by apply snoc_not_nil in E|].
    split; [done|]. intros pre Hpre. rewrite <- E in Hpre.
    apply app_inj_tail in Hpre as [_ Hxe]. congruence.
  - split; [done|]. auto.
Qed.

(** ** Deterministic step: implicit reject and head bounds *)

(** C4 (corrected).  With no transition for the symbol under the head,
    the deterministic step moves the head right by one, sets the
    rejecting state and leaves the tape as it is (it is not grown, so the
    position may equal the tape length); the run then stops at once with
    a rejecting result. *)
Theorem det_implicit_reject (d : DDescription) (c : Configuration) (a : Z) :
  tape c !! position c = Some a ->
  transitions d (state c) a = None ->
  accepting d <> rejecting d ->
  det_perform_step d c = inr (mkConfiguration (rejecting d) (tape c) (S (position c))) /\
  forall glob fuel n,
    det_loop glob false d (S fuel) c n =
    Some (det_result d n false (mkConfiguration (rejecting d) (tape c) (S (position c)))).
Proof.
  intros Ha Ht Hne.
  assert (Hs : det_perform_step d c =
               inr (mkConfiguration (rejecting d) (tape c) (S (position c))))
    by (unfold det_perform_step; rewrite Ha, Ht; reflexivity).
  split; [exact Hs|].
  intros glob fuel n. cbn [det_loop]. rewrite Hs. unfold maybe_print. cbn [state].
  apply Nat.eqb_neq in Hne. rewrite Nat.eqb_sym, Hne, Nat.eqb_refl. reflexivity.
Qed.


Lemma det_implicit_reject_witness :
  (tape stuck_conf !! position stuck_conf = Some 1 /\
   transitions ex_desc (state stuck_conf) 1 = None /\
   accepting ex_desc <> rejecting ex_desc) /\
  (det_perform_step ex_desc stuck_conf =
     inr (mkConfiguration (rejecting ex_desc) (tape stuck_conf) (S (position stuck_conf))) /\
   forall glob fuel n,
     det_loop glob false ex_desc (S fuel) stuck_conf n =
     Some (det_result ex_desc n false
             (mkConfiguration (rejecting ex_desc) (tape stuck_conf) (S (position stuck_conf))))).
Proof.
  split; [split; [reflexivity | split; [reflexivity | simpl; lia]]|].
  apply (det_implicit_reject ex_desc stuck_conf 1); [reflexivity | reflexivity | simpl; lia].
Defined.

(** C4, as stated, fails: with the head on the last cell, the implicit
    reject does not grow the tape. *)
Lemma det_implicit_reject_no_growth :
  det_perform_step ex_desc stuck_conf = inr (mkConfiguration 2 [1] 1) /\
  [1] <> tape stuck_conf ++ [0].
Proof. split; [reflexivity | discriminate]. Qed.

(** C6 (corrected).  Every successor the nondeterministic step yields
    keeps [position < len(tape)]; the deterministic step keeps it too,
    except that the implicit reject at the last cell leaves
    [position = len(tape)] with the tape unchanged (and the state
    rejecting).  A left move at position 0 stays at 0, and a right move
    from the last cell appends exactly one blank (index 0). *)
Theorem head_position_bounds :
  (forall (d : NDescription) c cs, wf_conf c ->
     nd_perform_step d c = inr (Yielded cs) -> Forall wf_conf cs) /\
  (forall (d : DDescription) c c', wf_conf c -> det_perform_step d c = inr c' ->
     wf_conf c' \/
     (state c' = rejecting d /\ tape c' = tape c /\ position c' = length (tape c))) /\
  (forall c q o, position c = 0%nat -> position (apply_triple c (q, o, false)) = 0%nat) /\
  (forall c q o, S (position c) = length (tape c) ->
     tape (apply_triple c (q, o, true)) = <[position c := u8 o]> (tape c) ++ [0]).
Proof.
  split; [|split; [|split]].
  - intros d c cs Hwf H. rewrite nd_perform_step_spec in H by exact Hwf.
    destruct (existsb _ _); [discriminate|]. injection H as <-.
    apply Forall_forall. intros c' Hc'. apply list_elem_of_filter in Hc' as [_ Hc'].
    apply elem_succs in Hc' as [tr ->]. by apply apply_triple_wf.
  - intros d c c' Hwf H. unfold det_perform_step in H.
    destruct (tape c !! position c) as [a|]; [|discriminate].
    destruct (transitions d (state c) a) as [tr|].
    + left. assert (c' = apply_triple c tr) as -> by congruence. by apply apply_triple_wf.
    + assert (c' = mkConfiguration (rejecting d) (tape c) (S (position c))) as -> by congruence.
      unfold wf_conf in *; simpl.
      destruct (decide (S (position c) < length (tape c))%nat); [left; lia | right; split_and!; auto; lia].
  - intros c q o H. rewrite apply_triple_position. lia.
  - intros c q o H. rewrite apply_triple_tape. unfold written_tape.
    rewrite <- H, Nat.eqb_refl. reflexivity.
Qed.

(** C6, as stated, fails: after the implicit reject at the last cell the
    head is one past the end of the tape. *)
Lemma head_bound_counterexample :
  det_perform_step ex_desc stuck_conf = inr (mkConfiguration 2 [1] 1) /\
  ~ wf_conf (mkConfiguration 2 [1] 1).
Proof. split; [reflexivity | unfold wf_conf; simpl; lia]. Qed.

Lemma result_tape_trimmed_witness :
  ["1"; "0"; "_"; "_"] <> [] /\
  (TuringMachineResult 0 true (Some ["1"; "0"; "_"; "_"]) =
     inr (mkResult 0 true (Some (spec_trim ["1"; "0"; "_"; "_"]))) /\
   spec_trim ["1"; "0"; "_"; "_"] <> [] /\
   (forall pre, spec_trim ["1"; "0"; "_"; "_"] = pre ++ ["_"] ->
                spec_trim ["1"; "0"; "_"; "_"] = ["_"])).
Proof.
  split; [discriminate|].
  apply (result_tape_trimmed 0 true ["1"; "0"; "_"; "_"]). discriminate.
Defined.

(** ** Input validation *)

Lemma index_of_not_elem x (l : list string) : x ∉ l -> index_of x l = None.
Proof.
  induction l as [|y l IH]; intros H; [done|]. simpl.
  destruct (String.eqb_spec x y) as [->|Hne]; [set_solver|].
  rewrite IH by set_solver. reflexivity.
Qed.

Lemma encode_invalid alph inp x :
  x ∈ inp -> x ∉ alph -> encode alph inp = inl InvalidInputSymbol.
Proof.
  intros Hin Hx. induction inp as [|y inp IH]; [set_solver|]. simpl.
  destruct (decide (x = y)) as [->|Hne].
  - by rewrite index_of_not_elem.
  - destruct (index_of y alph); [|done].
    rewrite IH by set_solver. reflexivity.
Qed.

(** C7.  An input holding a symbol outside the alphabet makes both
    engines fail with [InvalidInputSymbol], whatever the transitions, the
    [verbose] flag, the module's [description] global or the fuel: even
    with no fuel (no step run) and before the first configuration is
    printed. *)
Theorem invalid_symbol_rejected (dd : DDescription) (nd : NDescription)
  (glob : option DDescription) (inp : list string) (x : string)
  (verbose : bool) (fuel : nat) :
  x ∈ inp -> x ∉ alphabet dd -> x ∉ alphabet nd ->
  det_process_input_in glob dd inp verbose fuel = Some (inl InvalidInputSymbol) /\
  nd_process_input nd inp verbose fuel = Some (inl InvalidInputSymbol).
Proof.
  intros Hin Hd Hn.
  assert (Hdef : default_input inp = inp) by (destruct inp; [set_solver | reflexivity]).
  unfold det_process_input_in, nd_process_input. rewrite Hdef.
  rewrite (encode_invalid _ _ x Hin Hd), (encode_invalid _ _ x Hin Hn). done.
Qed.

Lemma invalid_symbol_rejected_witness :
  (("2" ∈ ["1"; "2"]) /\ ("2" ∉ alphabet ex_desc) /\ ("2" ∉ alphabet nd_fork_desc)) /\
  (det_process_input_in None ex_desc ["1"; "2"] true 0 = Some (inl InvalidInputSymbol) /\
   nd_process_input nd_fork_desc ["1"; "2"] true 0 = Some (inl InvalidInputSymbol)).
Proof.
  split; [split_and!; apply (bool_decide_unpack _); vm_compute; exact I |].
  apply (invalid_symbol_rejected ex_desc nd_fork_desc None ["1"; "2"] "2" true 0);
    apply (bool_decide_unpack _); vm_compute; exact I.
Defined.

(** ** Verbose tracing *)

(** Were the module global [description] bound to the machine's own
    description, the verbose run would give the plain result. *)
Example verbose_with_bound_global :
  det_process_input_in (Some ex_desc) ex_desc ["1"] true 10 =
  det_process_input ex_desc ["1"] false 10.
Proof. reflexivity. Qed.

(** C8 (code bug).  [print_configuration] reads the unbound module name
    [description] instead of [self.description]: the verbose run of the
    example machine raises [NameError] where the plain run accepts. *)
Theorem verbose_changes_result :
  det_process_input ex_desc ["1"] true 10 = Some (inl NameError) /\
  det_process_input ex_desc ["1"] false 10 = Some (inr (mkResult 0 true (Some ["1"]))).
Proof. split; reflexivity. Qed.

(** ** Empty input *)

(** C9.  Both engines treat the empty input exactly as [["_"]]. *)
Theorem empty_input_as_blank (dd : DDescription) (nd : NDescription)
  (verbose : bool) (fuel : nat) :
  det_process_input dd [] verbose fuel = det_process_input dd ["_"] verbose fuel /\
  nd_process_input nd [] verbose fuel = nd_process_input nd ["_"] verbose fuel.
Proof. split; reflexivity. Qed.

(** ** 8-bit tape cells *)

Lemma index_of_NoDup (l : list string) : forall i x,
  NoDup l -> l !! i = Some x -> index_of x l = Some i.
Proof.
  induction l as [|y l IH]; intros i x Hnd Hi; [done|].
  apply NoDup_cons in Hnd as [Hy Hnd]. destruct i as [|j]; simpl in Hi.
  - injection Hi as ->. simpl. by rewrite String.eqb_refl.
  - simpl. destruct (String.eqb_spec x y) as [->|Hne].
    + exfalso. apply Hy. by eapply list_elem_of_lookup_2.
    + by rewrite (IH j x Hnd Hi).
Qed.

Lemma a_string_length n : String.length (a_string n) = S n.
Proof. induction n as [|n IH]; [reflexivity | exact (f_equal S IH)]. Qed.

Lemma big_alphabet_NoDup : NoDup big_alphabet.
Proof.
  unfold big_alphabet. apply NoDup_cons. split.
  - intros Hin. apply list_elem_of_In, in_map_iff in Hin as ([|n] & Hn & _);
      discriminate Hn.
  - apply NoDup_ListNoDup, Finite.Injective_map_NoDup; [|apply seq_NoDup].
    intros m n Hmn. apply (f_equal String.length) in Hmn.
    rewrite !a_string_length in Hmn. lia.
Qed.

(** C10.  Tape cells are [uint8]: in an alphabet of distinct symbols, a
    symbol at index [i >= 256] is stored as [i mod 256] by the input
    encoding both engines share, and that cell decodes to another
    symbol. *)
Theorem uint8_symbol_wraps (alph : list string) (x : string) (i : nat) :
  NoDup alph -> alph !! i = Some x -> (256 <= i)%nat ->
  encode alph [x] = inr [Z.of_nat i mod 256] /\
  exists y, decode alph [Z.of_nat i mod 256] = inr [y] /\ y <> x.
Proof.
  intros Hnd Hi Hge. split.
  - simpl. rewrite (index_of_NoDup alph i x Hnd Hi). reflexivity.
  - pose proof (Z.mod_pos_bound (Z.of_nat i) 256 ltac:(lia)) as Hb.
    assert (Hj : (Z.to_nat (Z.of_nat i mod 256) < 256)%nat) by lia.
    pose proof (lookup_lt_Some _ _ _ Hi) as Hlen.
    destruct (lookup_lt_is_Some_2 alph (Z.to_nat (Z.of_nat i mod 256))) as [y Hy]; [lia|].
    exists y. simpl. rewrite Hy. split; [reflexivity|].
    intros ->. pose proof (NoDup_lookup _ _ _ _ Hnd Hy Hi). lia.
Qed.

Lemma uint8_symbol_wraps_witness :
  (NoDup big_alphabet /\
   big_alphabet !! 256%nat = Some (a_string 255) /\
   (256 <= 256)%nat) /\
  (encode big_alphabet [a_string 255] = inr [Z.of_nat 256 mod 256] /\
   exists y, decode big_alphabet [Z.of_nat 256 mod 256] = inr [y] /\
             y <> a_string 255).
Proof.
  split; [split_and!; [exact big_alphabet_NoDup | reflexivity | lia]|].
  apply (uint8_symbol_wraps big_alphabet _ 256);
    [exact big_alphabet_NoDup | reflexivity | lia].
Defined.

(** * Further properties of the code *)

(** ** Symbol encoding *)

Lemma index_of_lookup x (l : list string) : forall i,
  index_of x l = Some i -> l !! i = Some x.
Proof.
  induction l as [|y l IH]; intros i H; [discriminate|]. simpl in H.
  destruct (String.eqb_spec x y) as [->|Hne].
  - injection H as <-. reflexivity.
  - destruct (index_of x l) as [j|] eqn:E; simpl in H; [|discriminate].
    injection H as <-. simpl. by apply IH.
Qed.

Lemma index_of_elem x (l : list string) : x ∈ l -> exists i, index_of x l = Some i.
Proof.
  induction l as [|y l IH]; intros H.
  - apply list_elem_of_In in H. destruct H.
  - simpl. destruct (String.eqb_spec x y) as [->|Hne]; [eauto|].
    apply elem_of_cons in H as [->|H]; [done|].
    destruct (IH H) as [i ->]. simpl. eauto.
Qed.

Lemma encode_total alph inp : Forall (fun x => x ∈ alph) inp ->
  exists t, encode alph inp = inr t.
Proof.
  induction 1 as [|x inp Hx _ [t IH]]; [eauto|].
  destruct (index_of_elem _ _ Hx) as [i Hi]. simpl. rewrite Hi, IH. simpl. eauto.
Qed.


Lemma default_input_nonempty alph inp t :
  encode alph (default_input inp) = inr t -> t <> [].
Proof.
  intros H ->. apply encode_length in H. destruct inp; simpl in H; discriminate.
Qed.

(** encoding an input over an alphabet of at most 256 symbols and
    decoding the tape back, as [process_input] does for the result tape,
    gives the input back (also when the alphabet repeats a symbol). *)
Theorem encode_decode_roundtrip (alph inp : list string) :
  (length alph <= 256)%nat -> Forall (fun x => x ∈ alph) inp ->
  exists t, encode alph inp = inr t /\ decode alph t = inr inp.
Proof.
  intros Hlen. induction 1 as [|x inp Hx _ [t [Ht Hd]]]; [eauto|].
  destruct (index_of_elem _ _ Hx) as [i Hi].
  pose proof (index_of_lookup _ _ _ Hi) as Hl.
  pose proof (lookup_lt_Some _ _ _ Hl) as Hlt.
  exists (u8 (Z.of_nat i) :: t). split.
  - simpl. rewrite Hi, Ht. reflexivity.
  - assert (u8 (Z.of_nat i) = Z.of_nat i) as -> by (unfold u8; apply Z.mod_small; lia).
    simpl. rewrite Nat2Z.id, Hl, Hd. reflexivity.
Qed.

Lemma encode_decode_roundtrip_witness :
  ((length (alphabet ex_desc) <= 256)%nat /\
   Forall (fun x => x ∈ alphabet ex_desc) ["1"; "_"; "0"; "1"]) /\
  exists t, encode (alphabet ex_desc) ["1"; "_"; "0"; "1"] = inr t /\
            decode (alphabet ex_desc) t = inr ["1"; "_"; "0"; "1"].
Proof.
  split; [split; [simpl; lia | apply (bool_decide_unpack _); vm_compute; exact I]|].
  apply encode_decode_roundtrip;
    [simpl; lia | apply (bool_decide_unpack _); vm_compute; exact I].
Defined.

(** ** One step on the tape *)

Lemma apply_triple_frame c tr : tape_frame c (apply_triple c tr).
Proof.
  unfold tape_frame. rewrite apply_triple_tape. destruct tr as [[q o] mr].
  unfold written_tape. rewrite length_app, length_insert. split; [|split].
  - destruct (mr && _); simpl; lia.
  - intros i Hne Hi. rewrite lookup_app_l by (rewrite length_insert; lia).
    rewrite list_lookup_insert_ne by congruence. reflexivity.
  - intros i Hi.
    rewrite lookup_app_r by (rewrite length_insert; lia). rewrite length_insert.
    destruct (mr && _); simpl in *; [|lia].
    assert (i - length (tape c) = 0)%nat as -> by lia. reflexivity.
Qed.

(** a step of either engine changes no cell but the one under the
    head, grows the tape by at most one cell, and every grown cell holds
    0 (the index of the alphabet's first symbol); this holds for the
    deterministic step and for every configuration the nondeterministic
    step yields. *)
Theorem perform_step_frame :
  (forall (d : DDescription) c c', det_perform_step d c = inr c' -> tape_frame c c') /\
  (forall (d : NDescription) c cs, nd_perform_step d c = inr (Yielded cs) ->
     Forall (tape_frame c) cs).
Proof.
  split.
  - intros d c c' H. unfold det_perform_step in H.
    destruct (tape c !! position c) as [a|]; [|discriminate].
    destruct (transitions d (state c) a) as [tr|].
    + assert (c' = apply_triple c tr) as -> by congruence. apply apply_triple_frame.
    + assert (c' = mkConfiguration (rejecting d) (tape c) (S (position c))) as -> by congruence.
      unfold tape_frame; simpl. split; [lia|]. split; [done|]. intros i Hi; lia.
  - intros d c cs H. unfold nd_perform_step in H.
    destruct (tape c !! position c) as [a|]; [|discriminate].
    destruct (transitions d (state c) a) as [ts|].
    + assert (Hf : nd_fork d c ts = Yielded cs) by congruence.
      rewrite nd_fork_spec in Hf. destruct (existsb _ _); [discriminate|].
      injection Hf as <-. apply Forall_forall. intros c' Hc'.
      apply list_elem_of_filter in Hc' as [_ Hc'].
      apply list_elem_of_In, in_map_iff in Hc' as (tr & <- & _).
      apply apply_triple_frame.
    + assert (cs = []) as -> by congruence. constructor.
Qed.

(** ** Runs that never raise *)

Lemma det_loop_no_error (d : DDescription) glob fuel : wf_ddesc d -> forall c n e,
  wf_conf c -> syms_ok (alphabet d) (tape c) -> tape c <> [] ->
  det_loop glob false d fuel c n <> Some (inl e).
Proof.
  intros Hwf. induction fuel as [|fuel IH]; intros c n e Hc Hs Hne H; [discriminate|].
  simpl in H.
  destruct (lookup_lt_is_Some_2 (tape c) (position c) Hc) as [a Ha].
  destruct (det_perform_step d c) as [e'|c'] eqn:Hst.
  - unfold det_perform_step in Hst. rewrite Ha in Hst.
    destruct (transitions _ _ _); discriminate.
  - pose proof (det_step_syms_ok _ _ _ Hwf Hs Hst) as Hs'.
    pose proof (det_step_nonempty _ _ _ Hst Hne) as Hne'.
    unfold maybe_print in H.
    destruct (det_result_ok d n true c' Hs' Hne') as [r1 Hr1].
    destruct (det_result_ok d n false c' Hs' Hne') as [r2 Hr2].
    destruct (Nat.eqb (state c') (accepting d)); [congruence|].
    destruct (Nat.eqb (state c') (rejecting d)) eqn:Er; [congruence|].
    apply (IH c' (S n) e); [|exact Hs' | exact Hne' | exact H].
    unfold det_perform_step in Hst. rewrite Ha in Hst.
    destruct (transitions d (state c) a) as [tr|].
    + assert (c' = apply_triple c tr) as -> by congruence. by apply apply_triple_wf.
    + assert (c' = mkConfiguration (rejecting d) (tape c) (S (position c))) as -> by congruence.
      simpl in Er. by rewrite Nat.eqb_refl in Er.
Qed.

(** with a well-formed description (a blank exists and every written
    symbol is an alphabet index) and an input over the alphabet, the
    deterministic [process_input] without [verbose] never raises: no
    [IndexError] when reading the head cell or decoding the final tape,
    no error from the result's trimming. *)
Theorem det_process_input_no_error (d : DDescription) (glob : option DDescription)
  (inp : list string) (fuel : nat) (e : err) :
  wf_ddesc d -> Forall (fun x => x ∈ alphabet d) (default_input inp) ->
  det_process_input_in glob d inp false fuel <> Some (inl e).
Proof.
  intros Hwf Hin. destruct (encode_total _ _ Hin) as [t Ht].
  unfold det_process_input_in. rewrite Ht. simpl.
  apply det_loop_no_error;
    [exact Hwf | exact (initial_wf _ _ _ Ht) | exact (encode_ok _ _ _ Ht)
    | exact (default_input_nonempty _ _ _ Ht)].
Qed.

Lemma det_process_input_no_error_witness :
  (wf_ddesc ex_desc /\ Forall (fun x => x ∈ alphabet ex_desc) (default_input ["0"; "1"])) /\
  det_process_input_in None ex_desc ["0"; "1"] false 10 <> Some (inl IndexError).
Proof.
  split; [split; [exact ex_desc_wf | apply (bool_decide_unpack _); vm_compute; exact I]|].
  apply det_process_input_no_error;
    [exact ex_desc_wf | apply (bool_decide_unpack _); vm_compute; exact I].
Defined.

Lemma gen_next_wf d cs : Forall wf_conf cs -> Forall wf_conf (gen_next d cs).
Proof.
  intros Hcs. unfold gen_next. apply Forall_forall. intros c' Hc'.
  apply list_elem_of_In, in_flat_map in Hc' as (c & Hc & Hc').
  apply list_elem_of_In, list_elem_of_filter in Hc' as [_ Hc'].
  apply elem_succs in Hc' as (tr & ->). apply apply_triple_wf.
  rewrite Forall_forall in Hcs. apply Hcs. by apply list_elem_of_In.
Qed.

Lemma nd_loop_no_error d fuel : forall cs n e,
  Forall wf_conf cs -> nd_loop d fuel cs n <> Some (inl e).
Proof.
  induction fuel as [|fuel IH]; intros cs n e Hcs H; [discriminate|].
  simpl in H. rewrite nd_generation_spec in H by exact Hcs.
  destruct (gen_accepts d cs); [discriminate|].
  destruct (gen_next d cs) as [|c' cs'] eqn:E; [discriminate|].
  rewrite <- E in H. exact (IH _ _ _ (gen_next_wf d cs Hcs) H).
Qed.

(** for any description, the nondeterministic [process_input] on an
    input over the alphabet never raises: its head never leaves the tape
    and it decodes no tape. *)
Theorem nd_process_input_no_error (d : NDescription) (inp : list string)
  (verbose : bool) (fuel : nat) (e : err) :
  Forall (fun x => x ∈ alphabet d) (default_input inp) ->
  nd_process_input d inp verbose fuel <> Some (inl e).
Proof.
  intros Hin. destruct (encode_total _ _ Hin) as [t Ht].
  unfold nd_process_input. rewrite Ht.
  apply nd_loop_no_error. constructor; [exact (initial_wf _ _ _ Ht) | constructor].
Qed.

Lemma nd_process_input_no_error_witness :
  Forall (fun x => x ∈ alphabet nd_depth3_desc) (default_input []) /\
  nd_process_input nd_depth3_desc [] false 10 <> Some (inl IndexError).
Proof.
  split; [apply (bool_decide_unpack _); vm_compute; exact I|].
  apply nd_process_input_no_error. apply (bool_decide_unpack _); vm_compute; exact I.
Defined.

(** ** Rejection *)

Lemma det_loop_sound_rej d c0 glob fuel : forall g c r,
  det_live d c0 g c -> det_loop glob false d fuel c g = Some (inr r) ->
  accepted r = false ->
  exists c', det_rejects_after d c0 (S (num_steps r)) c' /\
             det_result d (num_steps r) false c' = inr r.
Proof.
  induction fuel as [|fuel IH]; intros g c r Hl H Hacc; simpl in H; [discriminate|].
  destruct (det_perform_step d c) as [e|c'] eqn:Hs; [discriminate|].
  unfold maybe_print in H.
  destruct (Nat.eqb (state c') (accepting d)) eqn:Ea.
  - injection H as H. apply det_result_fields in H as [_ Hf]. congruence.
  - destruct (Nat.eqb (state c') (rejecting d)) eqn:Er.
    + injection H as H. apply det_result_fields in H as Hf. destruct Hf as [Hn _].
      exists c'. rewrite Hn. split; [|exact H].
      exists g, c. apply Nat.eqb_eq in Er. apply Nat.eqb_neq in Ea. auto 10.
    + eapply IH; [| exact H | exact Hacc].
      econstructor; eauto; [apply Nat.eqb_neq, Ea | apply Nat.eqb_neq, Er].
Qed.

Lemma det_loop_complete_rej d c0 glob fuel : forall g c g' c',
  det_live d c0 g c -> (g <= g')%nat -> det_rejects_after d c0 (S g') c' ->
  (g' - g < fuel)%nat ->
  det_loop glob false d fuel c g = Some (det_result d g' false c').
Proof.
  induction fuel as [|fuel IH]; intros g c g' c' Hl Hle Hrej Hf; [lia|].
  destruct Hrej as (g1 & c1 & Heq & Hl1 & Hs1 & Hr1 & Ha1).
  assert (g1 = g') as -> by lia. simpl.
  destruct (decide (g = g')) as [->|Hne].
  - rewrite (det_live_functional _ _ _ _ Hl _ Hl1), Hs1. unfold maybe_print.
    apply Nat.eqb_neq in Ha1. by rewrite Ha1, Hr1, Nat.eqb_refl.
  - destruct (det_live_prefix _ _ _ _ Hl1 (S g)) as [x Hx]; [lia|].
    inversion Hx as [|g2 y x' Hy Hsy Hay Hry]; subst.
    rewrite (det_live_functional _ _ _ _ Hl _ Hy), Hsy. unfold maybe_print.
    apply Nat.eqb_neq in Hay, Hry. rewrite Hay, Hry.
    apply IH; [exact Hx | lia | | lia]. exists g', c1. auto.
Qed.

(** for a well-formed deterministic machine and a valid input,
    [process_input] (without [verbose]) returns [accepted = False] exactly
    when the run enters the rejecting state, by a defined transition or
    by the implicit reject, with its [num_steps + 1]-th transition; the
    result's tape is then the trimmed decoding of the final tape. *)
Theorem det_process_input_rejects (d : DDescription) (inp : list string) (t : list Z) :
  wf_ddesc d ->
  encode (alphabet d) (default_input inp) = inr t ->
  (forall fuel r,
     det_process_input d inp false fuel = Some (inr r) -> accepted r = false ->
     exists c', det_rejects_after d (initial_configuration t) (S (num_steps r)) c' /\
                det_result d (num_steps r) false c' = inr r) /\
  (forall m c', det_rejects_after d (initial_configuration t) m c' ->
     exists fuel r, det_process_input d inp false fuel = Some (inr r) /\
                    accepted r = false /\ S (num_steps r) = m).
Proof.
  intros Hwf Henc.
  assert (Hs0 : syms_ok (alphabet d) (tape (initial_configuration t))) by
    (eapply encode_ok; exact Henc).
  assert (Hne0 : tape (initial_configuration t) <> []) by
    exact (default_input_nonempty _ _ _ Henc).
  unfold det_process_input, det_process_input_in. rewrite Henc.
  unfold maybe_print. split.
  - intros fuel r H Hacc.
    eapply det_loop_sound_rej; [constructor | exact H | exact Hacc].
  - intros m c' Hrej. pose proof Hrej as (g & c & -> & Hl & Hs & Hr & Ha).
    destruct (det_live_inv d _ Hwf g c Hs0 Hne0 Hl) as [Hsc Hnec].
    destruct (det_result_ok d g false c') as [r Hr'];
      [eapply det_step_syms_ok; eauto | by eapply det_step_nonempty|].
    exists (S g), r.
    rewrite (det_loop_complete_rej d (mkConfiguration 0 t 0) tm_module_description (S g) 0
               (mkConfiguration 0 t 0) g c');
      [| constructor | lia | exact Hrej | lia].
    rewrite Hr'. apply det_result_fields in Hr' as [Hn Ha'].
    repeat split; auto.
Qed.

Lemma det_process_input_rejects_witness :
  (wf_ddesc ex_desc /\ encode (alphabet ex_desc) (default_input ["0"]) = inr [1]) /\
  ((forall fuel r,
     det_process_input ex_desc ["0"] false fuel = Some (inr r) -> accepted r = false ->
     exists c', det_rejects_after ex_desc (initial_configuration [1]) (S (num_steps r)) c' /\
                det_result ex_desc (num_steps r) false c' = inr r) /\
  (forall m c', det_rejects_after ex_desc (initial_configuration [1]) m c' ->
     exists fuel r, det_process_input ex_desc ["0"] false fuel = Some (inr r) /\
                    accepted r = false /\ S (num_steps r) = m)).
Proof.
  split; [split; [exact ex_desc_wf | reflexivity]|].
  exact (det_process_input_rejects ex_desc ["0"] [1] ex_desc_wf eq_refl).
Defined.

Lemma nd_loop_rejects d c0 (c0_wf : wf_conf c0) fuel : forall g cs n,
  (forall c, c ∈ cs <-> nd_live d c0 g c) -> cs <> [] ->
  nd_loop d fuel cs g = Some (inr (mkResult n false None)) ->
  (exists c, nd_live d c0 n c) /\ forall c, ~ nd_live d c0 (S n) c.
Proof.
  induction fuel as [|fuel IH]; intros g cs n Hcs Hne H; [discriminate|].
  simpl in H. rewrite nd_generation_spec in H by exact (gen_wf d c0 c0_wf g cs Hcs).
  destruct (gen_accepts d cs) eqn:Ea; [discriminate|].
  pose proof (gen_next_iff d c0 g cs Hcs Ea) as Hnext.
  destruct (gen_next d cs) as [|c' cs'] eqn:En.
  - injection H as <-. split.
    + destruct cs as [|c cs]; [done|]. exists c. apply Hcs.
      apply list_elem_of_In. left. reflexivity.
    + intros c Hc. apply Hnext in Hc. apply list_elem_of_In in Hc. destruct Hc.
  - rewrite <- En in H. apply (IH (S g) (gen_next d cs)); [rewrite En; exact Hnext | | exact H].
    rewrite En. discriminate.
Qed.

Lemma nd_loop_rejects_complete d c0 (c0_wf : wf_conf c0) fuel : forall g cs n,
  (forall c, c ∈ cs <-> nd_live d c0 g c) -> (g <= n)%nat -> (n - g < fuel)%nat ->
  (exists c, nd_live d c0 n c) -> (forall c, ~ nd_live d c0 (S n) c) ->
  (forall m, ~ nd_accepting_path d c0 m) ->
  nd_loop d fuel cs g = Some (inr (mkResult n false None)).
Proof.
  induction fuel as [|fuel IH]; intros g cs n Hcs Hle Hf [cn Hn] Hdead Hnone; [lia|].
  simpl. rewrite nd_generation_spec by exact (gen_wf d c0 c0_wf g cs Hcs).
  destruct (gen_accepts d cs) eqn:Ea.
  { exfalso. apply (Hnone (S g)). by apply (gen_accepts_iff d c0 g cs Hcs). }
  pose proof (gen_next_iff d c0 g cs Hcs Ea) as Hnext.
  destruct (decide (g = n)) as [->|Hne].
  - destruct (gen_next d cs) as [|c' cs'] eqn:En; [reflexivity|].
    exfalso. apply (Hdead c'). apply Hnext.
    apply list_elem_of_In. left. reflexivity.
  - destruct (live_prefix d c0 n cn Hn (S g)) as [c1 Hc1]; [lia|].
    destruct (gen_next d cs) as [|c' cs'] eqn:En.
    + exfalso. apply Hnext in Hc1. apply list_elem_of_In in Hc1. destruct Hc1.
    + simpl. rewrite <- En.
      apply IH; [rewrite En; exact Hnext | lia | lia | eauto | exact Hdead | exact Hnone].
Qed.

(** for a nondeterministic machine and a valid input, [process_input]
    returns [accepted = False] with [num_steps = n] exactly when no
    sequence of choices reaches the accepting state, some sequence of [n]
    choices stays in neither the accepting nor the rejecting state, and
    no sequence of [n + 1] choices does: every branch has died by the
    [n + 1]-th generation. *)
Theorem nd_process_input_rejects (d : NDescription) (inp : list string)
  (verbose : bool) (t : list Z) (n : nat) :
  encode (alphabet d) (default_input inp) = inr t ->
  (exists fuel, nd_process_input d inp verbose fuel = Some (inr (mkResult n false None))) <->
  (exists c, nd_live d (initial_configuration t) n c) /\
  (forall c, ~ nd_live d (initial_configuration t) (S n) c) /\
  (forall m, ~ nd_accepting_path d (initial_configuration t) m).
Proof.
  intros Henc. pose proof (initial_wf _ _ _ Henc) as Hwf0.
  assert (Hcs : forall c, c ∈ [initial_configuration t] <->
                          nd_live d (initial_configuration t) 0 c).
  { intros c. rewrite list_elem_of_singleton. split.
    - intros ->. constructor.
    - intros Hl. by inversion Hl. }
  unfold nd_process_input. rewrite Henc. split.
  - intros [fuel H].
    destruct (nd_loop_rejects d _ Hwf0 fuel 0 _ n Hcs ltac:(discriminate) H)
      as [Hlive Hdead].
    split; [exact Hlive|]. split; [exact Hdead|].
    destruct (nd_loop_sound d _ Hwf0 fuel 0 _ _ Hcs
                ltac:(intros m Hm (g & c & c' & -> & _); lia) H)
      as [(k & Hr & _) | (k & Hr & Hnone)]; [discriminate | exact Hnone].
  - intros (Hlive & Hdead & Hnone). exists (S n).
    apply (nd_loop_rejects_complete d _ Hwf0);
      [exact Hcs | lia | lia | exact Hlive | exact Hdead | exact Hnone].
Qed.

Lemma nd_process_input_rejects_witness :
  encode (alphabet nd_fork_desc) (default_input ["1"]) = inr [2] /\
  ((exists fuel, nd_process_input nd_fork_desc ["1"] false fuel =
                 Some (inr (mkResult 1 false None))) <->
   (exists c, nd_live nd_fork_desc (initial_configuration [2]) 1 c) /\
   (forall c, ~ nd_live nd_fork_desc (initial_configuration [2]) 2 c) /\
   (forall m, ~ nd_accepting_path nd_fork_desc (initial_configuration [2]) m)).
Proof.
  split; [reflexivity|].
  exact (nd_process_input_rejects nd_fork_desc ["1"] false [2] 1 eq_refl).
Defined.

(** ** The deterministic engine as a one-choice nondeterministic machine *)

Lemma forget_det_result d n acc c :
  syms_ok (alphabet d) (tape c) -> tape c <> [] ->
  forget_tape (Some (det_result d n acc c)) = Some (inr (mkResult n acc None)).
Proof.
  intros Hs Hne. destruct (det_result_ok d n acc c Hs Hne) as [r Hr].
  rewrite Hr. cbn [forget_tape]. apply det_result_fields in Hr as [-> ->]. reflexivity.
Qed.

Lemma det_nd_loop_agree (d : DDescription) glob fuel :
  wf_ddesc d -> accepting d <> rejecting d -> forall c n,
  syms_ok (alphabet d) (tape c) -> tape c <> [] ->
  nd_loop (lift_det d) fuel [c] n = forget_tape (det_loop glob false d fuel c n).
Proof.
  intros Hwf Hne. induction fuel as [|fuel IH]; intros c n Hs Hnil; [reflexivity|].
  cbn [nd_loop det_loop nd_generation].
  destruct (det_perform_step d c) as [e|c'] eqn:Hst.
  - unfold det_perform_step in Hst. unfold nd_perform_step.
    destruct (tape c !! position c) as [a|]; [|injection Hst as <-; reflexivity].
    destruct (transitions d (state c) a); discriminate.
  - pose proof (det_step_syms_ok _ _ _ Hwf Hs Hst) as Hs'.
    pose proof (det_step_nonempty _ _ _ Hst Hnil) as Hnil'.
    unfold maybe_print. cbn [ebind].
    unfold det_perform_step in Hst. unfold nd_perform_step.
    destruct (tape c !! position c) as [a|]; [|discriminate].
    cbn [transitions lift_det]. destruct (transitions d (state c) a) as [tr|].
    + assert (c' = apply_triple c tr) as -> by congruence.
      cbn [option_map nd_fork ebind accepting rejecting lift_det].
      destruct (Nat.eqb (state (apply_triple c tr)) (accepting d)) eqn:Ea.
      * symmetry. apply forget_det_result; assumption.
      * destruct (Nat.eqb (state (apply_triple c tr)) (rejecting d)) eqn:Er; simpl.
        -- symmetry. apply forget_det_result; assumption.
        -- apply IH; assumption.
    + assert (c' = mkConfiguration (rejecting d) (tape c) (S (position c))) as -> by congruence.
      simpl. apply Nat.eqb_neq in Hne. rewrite Nat.eqb_sym, Hne, Nat.eqb_refl.
      symmetry. apply forget_det_result; assumption.
Qed.

(** a deterministic machine whose accepting and rejecting states differ
    gives, run as a nondeterministic machine with one choice per defined
    transition, the same outcome: for every input and fuel, the
    nondeterministic [process_input] returns what the deterministic one
    returns (without [verbose]), the same [num_steps] and [accepted], only
    without the tape. *)
Theorem det_as_nondeterministic (d : DDescription) (inp : list string)
  (verbose : bool) (fuel : nat) :
  wf_ddesc d -> accepting d <> rejecting d ->
  nd_process_input (lift_det d) inp verbose fuel =
  forget_tape (det_process_input d inp false fuel).
Proof.
  intros Hwf Hne. unfold nd_process_input, det_process_input, det_process_input_in.
  cbn [alphabet lift_det].
  destruct (encode (alphabet d) (default_input inp)) as [e|t] eqn:Henc; [reflexivity|].
  unfold maybe_print. cbn [ebind].
  apply det_nd_loop_agree;
    [exact Hwf | exact Hne | exact (encode_ok _ _ _ Henc) | exact (default_input_nonempty _ _ _ Henc)].
Qed.

Lemma det_as_nondeterministic_witness :
  (wf_ddesc ex_desc /\ accepting ex_desc <> rejecting ex_desc) /\
  nd_process_input (lift_det ex_desc) ["1"] false 10 =
  forget_tape (det_process_input ex_desc ["1"] false 10).
Proof.
  split; [split; [exact ex_desc_wf | discriminate]|].
  apply det_as_nondeterministic; [exact ex_desc_wf | discriminate].
Defined.

(** ** Tracing *)

Lemma print_configuration_ok (d : DDescription) c :
  (state c < length (states d))%nat -> syms_ok (alphabet d) (tape c) ->
  exists s, print_configuration (Some d) c = inr s.
Proof.
  intros Hq Hs. unfold print_configuration.
  destruct (lookup_lt_is_Some_2 _ _ Hq) as [name Hn]. rewrite Hn.
  destruct (decode_ok _ _ Hs) as (l & Hl & _). rewrite Hl. simpl. eauto.
Qed.

Lemma det_loop_verbose_agree (d : DDescription) fuel :
  wf_ddesc d -> (rejecting d < length (states d))%nat ->
  (forall q a q' o mr, transitions d q a = Some (q', o, mr) ->
     (q' < length (states d))%nat) ->
  forall c n, syms_ok (alphabet d) (tape c) ->
  det_loop (Some d) true d fuel c n = det_loop (Some d) false d fuel c n.
Proof.
  intros Hwf Hrej Hnamed. induction fuel as [|fuel IH]; intros c n Hs; [reflexivity|].
  cbn [det_loop]. destruct (det_perform_step d c) as [e|c'] eqn:Hst; [reflexivity|].
  pose proof (det_step_syms_ok _ _ _ Hwf Hs Hst) as Hs'.
  assert (Hq : (state c' < length (states d))%nat).
  { unfold det_perform_step in Hst. destruct (tape c !! position c) as [a|]; [|discriminate].
    destruct (transitions d (state c) a) as [[[q o] mr]|] eqn:Et.
    - assert (c' = apply_triple c (q, o, mr)) as -> by congruence.
      rewrite state_apply_triple. exact (Hnamed _ _ _ _ _ Et).
    - assert (c' = mkConfiguration (rejecting d) (tape c) (S (position c))) as -> by congruence.
      exact Hrej. }
  destruct (print_configuration_ok d c' Hq Hs') as [s Hp].
  unfold maybe_print. rewrite Hp. cbn [ebind].
  destruct (Nat.eqb _ _); [reflexivity|]. destruct (Nat.eqb _ _); [reflexivity|].
  by apply IH.
Qed.

(** if [print_configuration] read the machine's own description (the
    module-level name [description] bound to it), tracing would not change
    the outcome: for a well-formed description whose rejecting state and
    transition targets all have a name in [states], [process_input] with
    [verbose = True] returns what it returns with [verbose = False]. *)
Theorem verbose_with_description_agrees (d : DDescription) (inp : list string)
  (fuel : nat) :
  wf_ddesc d -> (rejecting d < length (states d))%nat ->
  (forall q a q' o mr, transitions d q a = Some (q', o, mr) ->
     (q' < length (states d))%nat) ->
  det_process_input_in (Some d) d inp true fuel =
  det_process_input_in (Some d) d inp false fuel.
Proof.
  intros Hwf Hrej Hnamed. unfold det_process_input_in.
  destruct (encode (alphabet d) (default_input inp)) as [e|t] eqn:Henc; [reflexivity|].
  pose proof (encode_ok _ _ _ Henc) as Hs.
  destruct (print_configuration_ok d (mkConfiguration 0 t 0)) as [s Hp];
    [simpl; lia | exact Hs |].
  unfold maybe_print. rewrite Hp. cbn [ebind].
  by apply det_loop_verbose_agree.
Qed.

Lemma ex_desc_named :
  forall q a q' o mr, transitions ex_desc q a = Some (q', o, mr) ->
    (q' < length (states ex_desc))%nat.
Proof.
  intros q a q' o mr H. simpl in H.
  destruct (Nat.eqb q 0 && Z.eqb a 2); [injection H as <- _ _; simpl; lia | discriminate].
Qed.

Lemma verbose_with_description_agrees_witness :
  (wf_ddesc ex_desc /\ (rejecting ex_desc < length (states ex_desc))%nat /\
   (forall q a q' o mr, transitions ex_desc q a = Some (q', o, mr) ->
      (q' < length (states ex_desc))%nat)) /\
  det_process_input_in (Some ex_desc) ex_desc ["1"] true 10 =
  det_process_input_in (Some ex_desc) ex_desc ["1"] false 10.
Proof.
  split; [split; [exact ex_desc_wf | split; [simpl; lia | exact ex_desc_named]]|].
  apply verbose_with_description_agrees;
    [exact ex_desc_wf | simpl; lia | exact ex_desc_named].
Defined.


(** ** TuringMachineResult *)


Lemma drop_blanks_nonblank x rest : x <> "_" -> drop_blanks (x :: rest) = x :: rest.
Proof. intros Hx. simpl. apply String.eqb_neq in Hx. by rewrite Hx. Qed.

Lemma spec_trim_nonempty t : spec_trim t <> [].
Proof. unfold spec_trim. by destruct (rev (drop_blanks (rev t))). Qed.

Lemma spec_trim_idempotent t : spec_trim (spec_trim t) = spec_trim t.
Proof.
  unfold spec_trim at 2 3.
  destruct (break_index_cases (rev t) 0)
    as [(k & x & rest & _ & Hx & _ & Hd) | (_ & _ & Hd)]; rewrite Hd.
  - assert (Hne : rev (x :: rest) <> []).
    { intros H. apply (f_equal length) in H. rewrite length_rev in H. discriminate. }
    assert (Hm : (match rev (x :: rest) with [] => ["_"] | t' => t' end) = rev (x :: rest))
      by (destruct (rev (x :: rest)); done).
    rewrite Hm. unfold spec_trim. rewrite rev_involutive, drop_blanks_nonblank by exact Hx.
    exact Hm.
  - reflexivity.
Qed.

(** a stored tape is already trimmed: passing the tape of a
    [TuringMachineResult] to a new [TuringMachineResult] (any step count
    and verdict) stores it unchanged. *)
Theorem result_init_idempotent (n n' : nat) (acc acc' : bool) (t : list string)
  (r : Result) (t' : list string) :
  TuringMachineResult n acc (Some t) = inr r -> res_tape r = Some t' ->
  TuringMachineResult n' acc' (Some t') = inr (mkResult n' acc' (Some t')).
Proof.
  intros H Ht'. destruct t as [|x t]; [discriminate|].
  unfold TuringMachineResult in H. rewrite (trim_tape_spec (x :: t)) in H by discriminate.
  injection H as <-. simpl in Ht'. injection Ht' as <-.
  unfold TuringMachineResult. rewrite trim_tape_spec by apply spec_trim_nonempty.
  by rewrite spec_trim_idempotent.
Qed.

Lemma result_init_idempotent_witness :
  (TuringMachineResult 3 false (Some ["1"; "_"; "_"]) = inr (mkResult 3 false (Some ["1"])) /\
   res_tape (mkResult 3 false (Some ["1"])) = Some ["1"]) /\
  TuringMachineResult 0 true (Some ["1"]) = inr (mkResult 0 true (Some ["1"])).
Proof.
  split; [split; reflexivity|].
  exact (result_init_idempotent 3 0 false true ["1"; "_"; "_"] _ ["1"] eq_refl eq_refl).
Defined.

(** ** TuringMachineResult.__str__ *)

Lemma string_app_empty_r (s : string) : s +:+ "" = s.
Proof. induction s as [|a s IH]; [reflexivity | exact (f_equal (String.String a) IH)]. Qed.

(** [__str__] shows the verdict and, for a result without a tape (the
    nondeterministic engine's), everything: two results print the same
    text only if they have the same verdict, and two results without a
    tape print the same text only if they are equal, whatever
    [os.linesep] is. *)
Theorem result_str_faithful (linesep : string) :
  (forall r1 r2, result_str linesep r1 = result_str linesep r2 ->
     accepted r1 = accepted r2) /\
  (forall r1 r2, res_tape r1 = None -> res_tape r2 = None ->
     result_str linesep r1 = result_str linesep r2 -> r1 = r2).
Proof.
  split.
  - intros [n1 [|] t1] [n2 [|] t2]; unfold result_str; simpl; intros H;
      [reflexivity | discriminate | discriminate | reflexivity].
  - intros [n1 a1 t1] [n2 a2 t2] H1 H2 H. simpl in H1, H2. subst t1 t2.
    unfold result_str in H. cbn [accepted num_steps res_tape] in H.
    rewrite !string_app_empty_r in H.
    destruct a1, a2; [| simpl in H; discriminate | simpl in H; discriminate |].
    + apply (inj (String.append "accepted")), (inj (String.append linesep)), (inj pretty) in H.
      by subst.
    + apply (inj (String.append "not accepted")), (inj (String.append linesep)), (inj pretty) in H.
      by subst.
Qed.

(** ** The nondeterministic step *)

(** the nondeterministic [perform_step], drained by [list(...)], raises
    [IndexError] exactly when the head is off the tape; otherwise it
    raises [AcceptException] exactly when some successor (one per triple
    of the state/symbol pair) is in the accepting state, and else yields
    the successors not in the rejecting state, in the order of the
    triples. *)
Theorem nd_perform_step_outcome (d : NDescription) (c : Configuration) :
  (nd_perform_step d c = inl IndexError <-> ~ wf_conf c) /\
  (nd_perform_step d c = inr Raised <->
     wf_conf c /\ exists c', c' ∈ succs d c /\ state c' = accepting d) /\
  (forall cs, nd_perform_step d c = inr (Yielded cs) <->
     wf_conf c /\ (forall c', c' ∈ succs d c -> state c' <> accepting d) /\
     cs = filter (fun c' => state c' <> rejecting d) (succs d c)).
Proof.
  destruct (lt_dec (position c) (length (tape c))) as [Hwf|Hwf].
  - change (position c < length (tape c))%nat with (wf_conf c) in Hwf.
    rewrite (nd_perform_step_spec d c Hwf).
    destruct (existsb (fun c' => Nat.eqb (state c') (accepting d)) (succs d c)) eqn:E.
    + apply existsb_exists in E as (c' & Hin & Ha). apply Nat.eqb_eq in Ha.
      split; [split; [discriminate | done]|]. split.
      * split; [intros _; split; [exact Hwf|] | done].
        exists c'. split; [by apply list_elem_of_In | exact Ha].
      * intros cs. split; [discriminate|].
        intros (_ & Hno & _). exfalso. apply (Hno c'); [by apply list_elem_of_In | exact Ha].
    + assert (Hno : forall c', c' ∈ succs d c -> state c' <> accepting d).
      { intros c' Hin Ha. apply list_elem_of_In in Hin.
        assert (existsb (fun c' => Nat.eqb (state c') (accepting d)) (succs d c) = true)
          as Ht by (apply existsb_exists; exists c'; split; [exact Hin | by apply Nat.eqb_eq]).
        congruence. }
      split; [split; [discriminate | done]|]. split.
      * split; [discriminate|]. intros (_ & c' & Hin & Ha). exfalso. by apply (Hno c').
      * intros cs. split.
        -- intros H. injection H as <-. auto.
        -- intros (_ & _ & ->). reflexivity.
  - assert (Hl : tape c !! position c = None) by (apply lookup_ge_None_2; lia).
    unfold nd_perform_step. rewrite Hl. unfold wf_conf.
    split; [split; [intros _; exact Hwf | reflexivity]|]. split.
    + split; [discriminate | intros [H _]; contradiction].
    + intros cs. split; [discriminate | intros [H _]; contradiction].
Qed.

(** ** Deterministic runs *)



(** ** Storage of the nondeterministic step *)

Lemma nd_fork_h_alloc d c ts : forall s hs s' t,
  heap s !! hloc c = Some t ->
  (hloc c < next_loc s)%nat ->
  nd_fork_h d c ts s = Some (Yielded hs, s') ->
  next_loc s' = (next_loc s + pred (length ts))%nat.
Proof.
  induction ts as [|tr rest IH]; intros s hs s' t Ht Hlt H.
  - simpl in H. injection H as _ <-. simpl. lia.
  - rewrite nd_fork_h_cons in H.
    destruct (match rest with [] => Some (s, c) | _ => duplicate_configuration s c end)
      as [[s1 conf]|] eqn:E1; [| discriminate].
    cbn -[nd_fork_h] in H.
    destruct (apply_triple_h s1 conf tr) as [[s2 conf']|] eqn:E2; [| discriminate].
    cbn -[nd_fork_h] in H.
    apply (fork_choice _ _ _ _ _ t Ht) in E1.
    unfold apply_triple_h in E2.
    destruct E1 as [(-> & -> & ->) | (Hne & -> & ->)].
    + rewrite Ht in E2. simpl in E2. injection E2 as <- <-. simpl in H.
      destruct (Nat.eqb _ (accepting d)); [discriminate|].
      simpl in H. destruct (negb _); injection H as _ <-; simpl; lia.
    + simpl in E2. rewrite lookup_insert_eq in E2. simpl in E2.
      injection E2 as <- <-. cbn -[nd_fork_h] in H.
      destruct (Nat.eqb _ (accepting d)); [discriminate|].
      destruct (nd_fork_h d c rest _) as [[r3 s3]|] eqn:Hr; simpl in H; [| discriminate].
      destruct r3 as [|hs3]; [destruct (negb _); simpl in H; discriminate|].
      assert (s' = s3) as -> by (destruct (negb _); congruence).
      apply IH with (t := t) in Hr;
        [| simpl; rewrite !lookup_insert_ne; [exact Ht | lia | lia] | simpl; lia].
      simpl in Hr. destruct rest as [|tr' rest]; [done|]. simpl in Hr |- *. lia.
Qed.

(** when the nondeterministic [perform_step] yields (no successor
    accepts), it has allocated exactly one new tape array per triple of
    the state/symbol pair but the last: [duplicate_configuration] copies
    the tape for every triple except the last one, which reuses the
    parent's array. *)
Theorem nd_fork_copies (d : NDescription) (s s' : Store) (c : HConfiguration)
  (t : list Z) (hs : list HConfiguration) :
  heap s !! hloc c = Some t ->
  (hloc c < next_loc s)%nat ->
  nd_perform_step_h d s c = Some (Yielded hs, s') ->
  next_loc s' = (next_loc s + pred (length (succ_triples d (parent_value c t))))%nat.
Proof.
  intros Ht Hlt H. unfold nd_perform_step_h in H. rewrite Ht in H. simpl in H.
  unfold succ_triples, parent_value. simpl.
  destruct (t !! hposition c) as [a|]; simpl in H; [|discriminate].
  destruct (transitions d (hstate c) a) as [ts|]; simpl.
  - exact (nd_fork_h_alloc d c ts s hs s' t Ht Hlt H).
  - injection H as _ <-. lia.
Qed.

Lemma nd_fork_copies_witness :
  (heap fork_store !! hloc fork_parent = Some [2] /\
   (hloc fork_parent < next_loc fork_store)%nat /\
   nd_perform_step_h nd_fork_desc fork_store fork_parent =
     Some (Yielded [mkHConfiguration 1 1 1; mkHConfiguration 1 0 0],
           mkStore {[0%nat := [1]; 1%nat := [2; 0]]} 2)) /\
  next_loc (mkStore {[0%nat := [1]; 1%nat := [2; 0]]} 2) =
    (next_loc fork_store +
     pred (length (succ_triples nd_fork_desc (parent_value fork_parent [2%Z]))))%nat.
Proof.
  split; [split; [reflexivity | split; [simpl; lia | vm_compute; reflexivity]]|].
  apply (nd_fork_copies nd_fork_desc fork_store _ fork_parent [2]
           [mkHConfiguration 1 1 1; mkHConfiguration 1 0 0]);
    [reflexivity | simpl; lia | vm_compute; reflexivity].
Defined.
